(** * OGMNeo relation query builder (src/lib/ogmneo-relation-query.js)

    A shallow embedding of the class [OGMNeoRelationQuery]: the builder
    object is a record of its private fields, every method is a computation
    in a small state monad over the "world" (the builder plus the store of
    filter objects it may alias), and the rendered Cypher text is a
    [string]. *)

From Stdlib Require Import String Ascii List ZArith Bool Lia DecimalString.
Import ListNotations.

Local Open Scope string_scope.
Local Open Scope Z_scope.

(** ** JavaScript values that reach the builder *)

(** Numbers.  [_.isInteger] holds exactly of the integral doubles, which we
    carry as their mathematical value ([-0] behaves as [0] everywhere in this
    file: it is an integer, it is falsy and it prints as [0]).  All the other
    numbers are only ever rejected by the builder; [NaN] is kept apart
    because it is falsy. *)
Inductive JSNumber : Type :=
| NumInt (z : Z)
| NumNaN
| NumNonInteger.

(** Identity of an [OGMNeoWhere] instance in the object store. *)
Definition addr := nat.

#[warnings="-register-all"]
Inductive JSValue : Type :=
| JSUndefined
| JSNull
| JSBool (b : bool)
| JSNum (n : JSNumber)
| JSString (s : string)
| JSArray (elems : list JSValue)
| JSWhere (a : addr)          (* an object created by [new OGMNeoWhere] *)
| JSObject.                   (* any other object *)

(** JavaScript truthiness ([if (v)], [v ? a : b], [!v]). *)
Definition truthy (v : JSValue) : bool :=
  match v with
  | JSUndefined | JSNull => false
  | JSBool b => b
  | JSNum (NumInt z) => negb (z =? 0)
  | JSNum NumNaN => false
  | JSNum NumNonInteger => true
  | JSString s => negb (s =? "")%string
  | JSArray _ | JSWhere _ | JSObject => true
  end.

(** lodash predicates used by the setters. *)
Definition isInteger (v : JSValue) : option Z :=
  match v with JSNum (NumInt z) => Some z | _ => None end.

Definition isString (v : JSValue) : option string :=
  match v with JSString s => Some s | _ => None end.

(** [v == null]: true of [null] and [undefined] only. *)
Definition eq_null (v : JSValue) : bool :=
  match v with JSUndefined | JSNull => true | _ => false end.

(** [String(n)], the text a template literal inserts for an integral number:
    plain decimal digits, with a leading [-] for a negative one.  (JavaScript
    switches to exponent notation from 1e21 on; ids and limits of that size
    are outside what is modelled.  Every statement below holds for all of
    [Z], of which the integral doubles are a subset.) *)
Definition Number_toString (z : Z) : string :=
  NilEmpty.string_of_int (Z.to_int z).

(** ** Collaborators that live outside this file *)

(** Modelled from the spec: the filter class [OGMNeoWhere]
    (src/lib/ogmneo-where.js is missing).  A filter is a string-rendering
    value object with a settable [variable] (the pattern variable it is
    scoped to) and a [clause] accessor that renders the boolean fragment for
    that variable, without side effect.  What the filter tests is kept
    abstract: [fragment] maps the variable to the rendered text. *)
Record OGMNeoWhere : Type := mkWhere {
  variable : string;
  fragment : string -> string
}.

Definition clause (w : OGMNeoWhere) : string := fragment w (variable w).

Definition set_variable (v : string) (w : OGMNeoWhere) : OGMNeoWhere :=
  {| variable := v; fragment := fragment w |}.

(** Modelled from the spec: [OGMObjectParse.isValidPropertiesArray]
    (src/lib/ogmneo-parse.js is missing): true when the value is a non-empty
    string or a non-empty sequence of strings. *)
Definition isValidPropertiesArray (v : JSValue) : bool :=
  match v with
  | JSString s => negb (s =? "")%string
  | JSArray elems =>
      negb (Nat.eqb (length elems) 0)
      && forallb (fun e => match e with JSString _ => true | _ => false end) elems
  | _ => false
  end.

Fixpoint join (sep : string) (parts : list string) : string :=
  match parts with
  | [] => ""
  | [p] => p
  | p :: rest => p ++ sep ++ join sep rest
  end.

(** Modelled from the spec: [OGMObjectParse.parsePropertiesArray]
    (src/lib/ogmneo-parse.js is missing): a comma-joined list of
    [variable.property] tokens, one for a single string, N for a sequence,
    in input order.  The builder only calls it on values accepted by
    [isValidPropertiesArray]; the result on other values is not specified
    and is taken to be empty. *)
Definition property_token (var : string) (v : JSValue) : string :=
  match v with
  | JSString p => var ++ "." ++ p
  | _ => ""
  end.

Definition parsePropertiesArray (v : JSValue) (var : string) : string :=
  match v with
  | JSString _ => property_token var v
  | JSArray elems => join ", " (map (property_token var) elems)
  | _ => ""
  end.

(** ** The builder object *)

Inductive Order : Type := ASC | DESC.

Definition order_keyword (o : Order) : string :=
  match o with ASC => "ASC" | DESC => "DESC" end.

(** The object literal stored in [this._orderBy].  [descOrderBy] writes no
    [startNodeProperties]/[endNodeProperties] keys, so they read back as
    [undefined]. *)
Record OrderBy : Type := mkOrderBy {
  properties : JSValue;
  startNodeProperties : JSValue;
  endNodeProperties : JSValue;
  order : Order
}.

(** A field holding [undefined], [null] or a filter object. *)
Inductive WhereSlot : Type :=
| SlotUndefined
| SlotNull
| SlotWhere (a : addr).

(** The private fields of [OGMNeoRelationQuery]; [None] is [undefined]
    (never assigned). *)
Record OGMNeoRelationQuery : Type := mkQuery {
  _type : option string;
  _startNodeId : option Z;
  _startNodeLabel : option string;
  _endNodeId : option Z;
  _endNodeLabel : option string;
  _startNodeWhere : WhereSlot;
  _endNodeWhere : WhereSlot;
  _relationWhere : WhereSlot;
  _limit : option Z;
  _orderBy : option OrderBy;
  _returnStart : option string;
  _returnEnd : option string;
  _returnRelation : option string
}.

Definition Heap := addr -> OGMNeoWhere.

(** Everything a method of the builder can read or write: the builder itself
    and the filter objects it holds references to. *)
Record World : Type := mkWorld {
  heap : Heap;
  this : OGMNeoRelationQuery
}.

(** Field assignment, [this.f = v], one function per field. *)
Definition assign_type (v : option string) (q : OGMNeoRelationQuery) : OGMNeoRelationQuery :=
  {| _type := v;
     _startNodeId := _startNodeId q;
     _startNodeLabel := _startNodeLabel q;
     _endNodeId := _endNodeId q;
     _endNodeLabel := _endNodeLabel q;
     _startNodeWhere := _startNodeWhere q;
     _endNodeWhere := _endNodeWhere q;
     _relationWhere := _relationWhere q;
     _limit := _limit q;
     _orderBy := _orderBy q;
     _returnStart := _returnStart q;
     _returnEnd := _returnEnd q;
     _returnRelation := _returnRelation q |}.

Definition assign_startNodeId (v : option Z) (q : OGMNeoRelationQuery) : OGMNeoRelationQuery :=
  {| _type := _type q;
     _startNodeId := v;
     _startNodeLabel := _startNodeLabel q;
     _endNodeId := _endNodeId q;
     _endNodeLabel := _endNodeLabel q;
     _startNodeWhere := _startNodeWhere q;
     _endNodeWhere := _endNodeWhere q;
     _relationWhere := _relationWhere q;
     _limit := _limit q;
     _orderBy := _orderBy q;
     _returnStart := _returnStart q;
     _returnEnd := _returnEnd q;
     _returnRelation := _returnRelation q |}.

Definition assign_startNodeLabel (v : option string) (q : OGMNeoRelationQuery) : OGMNeoRelationQuery :=
  {| _type := _type q;
     _startNodeId := _startNodeId q;
     _startNodeLabel := v;
     _endNodeId := _endNodeId q;
     _endNodeLabel := _endNodeLabel q;
     _startNodeWhere := _startNodeWhere q;
     _endNodeWhere := _endNodeWhere q;
     _relationWhere := _relationWhere q;
     _limit := _limit q;
     _orderBy := _orderBy q;
     _returnStart := _returnStart q;
     _returnEnd := _returnEnd q;
     _returnRelation := _returnRelation q |}.

Definition assign_endNodeId (v : option Z) (q : OGMNeoRelationQuery) : OGMNeoRelationQuery :=
  {| _type := _type q;
     _startNodeId := _startNodeId q;
     _startNodeLabel := _startNodeLabel q;
     _endNodeId := v;
     _endNodeLabel := _endNodeLabel q;
     _startNodeWhere := _startNodeWhere q;
     _endNodeWhere := _endNodeWhere q;
     _relationWhere := _relationWhere q;
     _limit := _limit q;
     _orderBy := _orderBy q;
     _returnStart := _returnStart q;
     _returnEnd := _returnEnd q;
     _returnRelation := _returnRelation q |}.

Definition assign_endNodeLabel (v : option string) (q : OGMNeoRelationQuery) : OGMNeoRelationQuery :=
  {| _type := _type q;
     _startNodeId := _startNodeId q;
     _startNodeLabel := _startNodeLabel q;
     _endNodeId := _endNodeId q;
     _endNodeLabel := v;
     _startNodeWhere := _startNodeWhere q;
     _endNodeWhere := _endNodeWhere q;
     _relationWhere := _relationWhere q;
     _limit := _limit q;
     _orderBy := _orderBy q;
     _returnStart := _returnStart q;
     _returnEnd := _returnEnd q;
     _returnRelation := _returnRelation q |}.

Definition assign_startNodeWhere (v : WhereSlot) (q : OGMNeoRelationQuery) : OGMNeoRelationQuery :=
  {| _type := _type q;
     _startNodeId := _startNodeId q;
     _startNodeLabel := _startNodeLabel q;
     _endNodeId := _endNodeId q;
     _endNodeLabel := _endNodeLabel q;
     _startNodeWhere := v;
     _endNodeWhere := _endNodeWhere q;
     _relationWhere := _relationWhere q;
     _limit := _limit q;
     _orderBy := _orderBy q;
     _returnStart := _returnStart q;
     _returnEnd := _returnEnd q;
     _returnRelation := _returnRelation q |}.

Definition assign_endNodeWhere (v : WhereSlot) (q : OGMNeoRelationQuery) : OGMNeoRelationQuery :=
  {| _type := _type q;
     _startNodeId := _startNodeId q;
     _startNodeLabel := _startNodeLabel q;
     _endNodeId := _endNodeId q;
     _endNodeLabel := _endNodeLabel q;
     _startNodeWhere := _startNodeWhere q;
     _endNodeWhere := v;
     _relationWhere := _relationWhere q;
     _limit := _limit q;
     _orderBy := _orderBy q;
     _returnStart := _returnStart q;
     _returnEnd := _returnEnd q;
     _returnRelation := _returnRelation q |}.

Definition assign_relationWhere (v : WhereSlot) (q : OGMNeoRelationQuery) : OGMNeoRelationQuery :=
  {| _type := _type q;
     _startNodeId := _startNodeId q;
     _startNodeLabel := _startNodeLabel q;
     _endNodeId := _endNodeId q;
     _endNodeLabel := _endNodeLabel q;
     _startNodeWhere := _startNodeWhere q;
     _endNodeWhere := _endNodeWhere q;
     _relationWhere := v;
     _limit := _limit q;
     _orderBy := _orderBy q;
     _returnStart := _returnStart q;
     _returnEnd := _returnEnd q;
     _returnRelation := _returnRelation q |}.

Definition assign_limit (v : option Z) (q : OGMNeoRelationQuery) : OGMNeoRelationQuery :=
  {| _type := _type q;
     _startNodeId := _startNodeId q;
     _startNodeLabel := _startNodeLabel q;
     _endNodeId := _endNodeId q;
     _endNodeLabel := _endNodeLabel q;
     _startNodeWhere := _startNodeWhere q;
     _endNodeWhere := _endNodeWhere q;
     _relationWhere := _relationWhere q;
     _limit := v;
     _orderBy := _orderBy q;
     _returnStart := _returnStart q;
     _returnEnd := _returnEnd q;
     _returnRelation := _returnRelation q |}.

Definition assign_orderBy (v : option OrderBy) (q : OGMNeoRelationQuery) : OGMNeoRelationQuery :=
  {| _type := _type q;
     _startNodeId := _startNodeId q;
     _startNodeLabel := _startNodeLabel q;
     _endNodeId := _endNodeId q;
     _endNodeLabel := _endNodeLabel q;
     _startNodeWhere := _startNodeWhere q;
     _endNodeWhere := _endNodeWhere q;
     _relationWhere := _relationWhere q;
     _limit := _limit q;
     _orderBy := v;
     _returnStart := _returnStart q;
     _returnEnd := _returnEnd q;
     _returnRelation := _returnRelation q |}.

Definition assign_returnStart (v : option string) (q : OGMNeoRelationQuery) : OGMNeoRelationQuery :=
  {| _type := _type q;
     _startNodeId := _startNodeId q;
     _startNodeLabel := _startNodeLabel q;
     _endNodeId := _endNodeId q;
     _endNodeLabel := _endNodeLabel q;
     _startNodeWhere := _startNodeWhere q;
     _endNodeWhere := _endNodeWhere q;
     _relationWhere := _relationWhere q;
     _limit := _limit q;
     _orderBy := _orderBy q;
     _returnStart := v;
     _returnEnd := _returnEnd q;
     _returnRelation := _returnRelation q |}.

Definition assign_returnEnd (v : option string) (q : OGMNeoRelationQuery) : OGMNeoRelationQuery :=
  {| _type := _type q;
     _startNodeId := _startNodeId q;
     _startNodeLabel := _startNodeLabel q;
     _endNodeId := _endNodeId q;
     _endNodeLabel := _endNodeLabel q;
     _startNodeWhere := _startNodeWhere q;
     _endNodeWhere := _endNodeWhere q;
     _relationWhere := _relationWhere q;
     _limit := _limit q;
     _orderBy := _orderBy q;
     _returnStart := _returnStart q;
     _returnEnd := v;
     _returnRelation := _returnRelation q |}.

Definition assign_returnRelation (v : option string) (q : OGMNeoRelationQuery) : OGMNeoRelationQuery :=
  {| _type := _type q;
     _startNodeId := _startNodeId q;
     _startNodeLabel := _startNodeLabel q;
     _endNodeId := _endNodeId q;
     _endNodeLabel := _endNodeLabel q;
     _startNodeWhere := _startNodeWhere q;
     _endNodeWhere := _endNodeWhere q;
     _relationWhere := _relationWhere q;
     _limit := _limit q;
     _orderBy := _orderBy q;
     _returnStart := _returnStart q;
     _returnEnd := _returnEnd q;
     _returnRelation := v |}.

(** ** The method monad

    A method body runs against the world and yields its JavaScript return
    value together with the world it leaves behind. *)

Definition M (A : Type) : Type := World -> A * World.

Definition ret {A : Type} (a : A) : M A := fun w => (a, w).

Definition bind {A B : Type} (m : M A) (k : A -> M B) : M B :=
  fun w => let (a, w') := m w in k a w'.

Notation "x <- m ;; k" := (bind m (fun x => k))
  (at level 61, m at next level, right associativity).
Notation "m ;;; k" := (bind m (fun _ => k))
  (at level 61, right associativity).

(** Read a field of [this]. *)
Definition read {A : Type} (f : OGMNeoRelationQuery -> A) : M A :=
  fun w => (f (this w), w).

(** Write a field of [this]. *)
Definition write (upd : OGMNeoRelationQuery -> OGMNeoRelationQuery) : M unit :=
  fun w => (tt, {| heap := heap w; this := upd (this w) |}).

(** [o.clause] for the filter object at [a]. *)
Definition read_clause (a : addr) : M string :=
  fun w => (clause (heap w a), w).

(** [o.variable = v] for the filter object at [a]: visible through every
    reference to that object. *)
Definition heap_set_variable (a : addr) (v : string) (h : Heap) : Heap :=
  fun a' => if Nat.eqb a' a then set_variable v (h a') else h a'.

Definition write_variable (a : addr) (v : string) : M unit :=
  fun w => (tt, {| heap := heap_set_variable a v (heap w); this := this w |}).

Definition exec {A : Type} (m : M A) (w : World) : World := snd (m w).
Definition eval {A : Type} (m : M A) (w : World) : A := fst (m w).

(** ** Setters

    Every chained setter ends in [return this]; the builder it returns is
    the [this] of the resulting world, so a setter is a computation of type
    [M unit] and a chain [q.a(x).b(y)] is [a x ;;; b y]. *)

(** [set type(type)] *)
Definition set_type (type : JSValue) : M unit :=
  match isString type with
  | Some s => if negb (s =? "")%string then write (assign_type (Some s)) else ret tt
  | None => ret tt
  end.

(** [get type()] *)
Definition get_type : M (option string) := read _type.

(** A freshly allocated object: no field was assigned yet. *)
Definition empty_query : OGMNeoRelationQuery :=
  {| _type := None;
     _startNodeId := None; _startNodeLabel := None;
     _endNodeId := None; _endNodeLabel := None;
     _startNodeWhere := SlotUndefined; _endNodeWhere := SlotUndefined;
     _relationWhere := SlotUndefined;
     _limit := None; _orderBy := None;
     _returnStart := None; _returnEnd := None; _returnRelation := None |}.

(** [constructor(type)] and [static create(type)], given the current object
    store. *)
Definition constructor (type : JSValue) (h : Heap) : World :=
  exec (set_type type) {| heap := h; this := empty_query |}.

Definition create (type : JSValue) (h : Heap) : World := constructor type h.

Definition startNode (nodeId label : JSValue) : M unit :=
  match isInteger nodeId with
  | Some z => write (assign_startNodeId (Some z))
  | None => ret tt
  end ;;;
  match isString label with
  | Some s => write (assign_startNodeLabel (Some s))
  | None => ret tt
  end.

Definition endNode (nodeId label : JSValue) : M unit :=
  match isInteger nodeId with
  | Some z => write (assign_endNodeId (Some z))
  | None => ret tt
  end ;;;
  match isString label with
  | Some s => write (assign_endNodeLabel (Some s))
  | None => ret tt
  end.

(** [where instanceof OGMNeoWhere] *)
Definition instanceof_OGMNeoWhere (v : JSValue) : bool :=
  match v with JSWhere _ => true | _ => false end.

(** The value a filter field holds after [this.f = where], for a [where]
    that passed the guard. *)
Definition to_slot (where_ : JSValue) : WhereSlot :=
  match where_ with
  | JSWhere a => SlotWhere a
  | JSNull => SlotNull
  | _ => SlotUndefined
  end.

(** [slot.variable = v]; only run on a slot that holds a filter. *)
Definition assign_variable (slot : WhereSlot) (v : string) : M unit :=
  match slot with
  | SlotWhere a => write_variable a v
  | _ => ret tt
  end.

Definition startNodeWhere (where_ : JSValue) : M unit :=
  if eq_null where_ || instanceof_OGMNeoWhere where_ then
    write (assign_startNodeWhere (to_slot where_)) ;;;
    if truthy where_ then
      slot <- read _startNodeWhere ;; assign_variable slot "n1"
    else ret tt
  else ret tt.

Definition endNodeWhere (where_ : JSValue) : M unit :=
  if eq_null where_ || instanceof_OGMNeoWhere where_ then
    write (assign_endNodeWhere (to_slot where_)) ;;;
    if truthy where_ then
      slot <- read _endNodeWhere ;; assign_variable slot "n2"
    else ret tt
  else ret tt.

Definition relationWhere (where_ : JSValue) : M unit :=
  if eq_null where_ || instanceof_OGMNeoWhere where_ then
    write (assign_relationWhere (to_slot where_)) ;;;
    if truthy where_ then
      slot <- read _relationWhere ;; assign_variable slot "r"
    else ret tt
  else ret tt.

Definition limit (limit_ : JSValue) : M unit :=
  match isInteger limit_ with
  | Some z => write (assign_limit (Some z))
  | None => ret tt
  end.

Definition descOrderBy (props : JSValue) : M unit :=
  write (assign_orderBy
           (Some {| properties := props;
                    startNodeProperties := JSUndefined;
                    endNodeProperties := JSUndefined;
                    order := DESC |})).

(** A default parameter [= null] replaces a missing or [undefined]
    argument. *)
Definition default_null (v : JSValue) : JSValue :=
  match v with JSUndefined => JSNull | _ => v end.

Definition ascOrderBy (props startProps endProps : JSValue) : M unit :=
  write (assign_orderBy
           (Some {| properties := props;
                    startNodeProperties := default_null startProps;
                    endNodeProperties := default_null endProps;
                    order := ASC |})).

Definition returnStartNode (props : JSValue) : M unit :=
  if isValidPropertiesArray props
  then write (assign_returnStart (Some (parsePropertiesArray props "n1")))
  else ret tt.

Definition returnEndNode (props : JSValue) : M unit :=
  if isValidPropertiesArray props
  then write (assign_returnEnd (Some (parsePropertiesArray props "n2")))
  else ret tt.

Definition returnRelationNode (props : JSValue) : M unit :=
  if isValidPropertiesArray props
  then write (assign_returnRelation (Some (parsePropertiesArray props "r")))
  else ret tt.

(** ** Fragment renderers *)

(** [s !== ''] *)
Definition nonempty (s : string) : bool := negb (s =? "")%string.

(** [o ? o : d] for a field [o] that is [undefined] or a string: the empty
    string is falsy too. *)
Definition or_default (o : option string) (d : string) : string :=
  match o with
  | Some s => if nonempty s then s else d
  | None => d
  end.

Definition _concatWhereClause (whereClause newClause : string) : M string :=
  ret (whereClause ++ (if nonempty whereClause then " AND " else "") ++ newClause).

(** In the three filter tests below, [slot != null] holds exactly of a slot
    that holds a filter, whose [.clause] is then read. *)
Definition whereCypher : M string :=
  let where_ := "" in
  startNodeId <- read _startNodeId ;;
  where_ <- match startNodeId with
            | Some id => _concatWhereClause where_ ("ID(n1) = " ++ Number_toString id)
            | None => ret where_
            end ;;
  endNodeId <- read _endNodeId ;;
  where_ <- match endNodeId with
            | Some id => _concatWhereClause where_ ("ID(n2) = " ++ Number_toString id)
            | None => ret where_
            end ;;
  relationWhere_ <- read _relationWhere ;;
  where_ <- match relationWhere_ with
            | SlotWhere a => c <- read_clause a ;; _concatWhereClause where_ c
            | _ => ret where_
            end ;;
  startNodeWhere_ <- read _startNodeWhere ;;
  where_ <- match startNodeWhere_ with
            | SlotWhere a => c <- read_clause a ;; _concatWhereClause where_ c
            | _ => ret where_
            end ;;
  endNodeWhere_ <- read _endNodeWhere ;;
  where_ <- match endNodeWhere_ with
            | SlotWhere a => c <- read_clause a ;; _concatWhereClause where_ c
            | _ => ret where_
            end ;;
  ret (if nonempty where_ then "WHERE " ++ where_ else "").

Definition _startNodeClause : M string :=
  label <- read _startNodeLabel ;;
  ret ("n1" ++ match label with Some l => ":" ++ l | None => "" end).

Definition _endNodeClause : M string :=
  label <- read _endNodeLabel ;;
  ret ("n2" ++ match label with Some l => ":" ++ l | None => "" end).

Definition _relationClause : M string :=
  type <- get_type ;;
  ret ("r" ++ match type with Some t => ":" ++ t | None => "" end).

Definition matchCypher : M string :=
  s <- _startNodeClause ;;
  r <- _relationClause ;;
  e <- _endNodeClause ;;
  w <- whereCypher ;;
  ret ("MATCH p=(" ++ s ++ ")-[" ++ r ++ "]->(" ++ e ++ ") " ++ w).

(** [populated] is only ever tested for truthiness; the builder itself passes
    [false] or [true]. *)
Definition returnClause (populated : bool) : M string :=
  returnRelation <- read _returnRelation ;;
  let returnClause := or_default returnRelation "r" in
  returnClause <-
    (if populated then
       returnStart <- read _returnStart ;;
       let returnClause := returnClause ++ ", " ++ or_default returnStart "n1" in
       returnEnd <- read _returnEnd ;;
       ret (returnClause ++ ", " ++ or_default returnEnd "n2")
     else ret returnClause) ;;
  ret ("RETURN " ++ returnClause).

(** [nodes === s] *)
Definition strict_eq_string (v : JSValue) (s : string) : bool :=
  match v with JSString s' => (s' =? s)%string | _ => false end.

Definition nodesReturnClause (nodes distinct : JSValue) : M string :=
  let returnClause := "" in
  let distinctClause := if truthy distinct then "DISTINCT " else "" in
  returnClause <-
    (if negb (truthy nodes) || strict_eq_string nodes "start" || strict_eq_string nodes "both" then
       returnStart <- read _returnStart ;;
       ret (returnClause ++ or_default returnStart "n1")
     else ret returnClause) ;;
  returnClause <-
    (if negb (truthy nodes) || strict_eq_string nodes "end" || strict_eq_string nodes "both" then
       let returnClause := if nonempty returnClause then returnClause ++ ", " else returnClause in
       returnEnd <- read _returnEnd ;;
       ret (returnClause ++ or_default returnEnd "n2")
     else ret returnClause) ;;
  ret ("RETURN " ++ distinctClause ++ returnClause).

Definition _addOrderByClause (clause_ : string) (props : JSValue) (var : string) : M string :=
  if isValidPropertiesArray props then
    let propertiesClause := parsePropertiesArray props var in
    ret (clause_ ++ (if nonempty clause_ then ", " else "") ++ propertiesClause)
  else ret clause_.

Definition orderByClause : M string :=
  let orderBy := "" in
  orderBy_ <- read _orderBy ;;
  match orderBy_ with
  | Some o =>
      orderBy <- _addOrderByClause orderBy (properties o) "r" ;;
      orderBy <- _addOrderByClause orderBy (startNodeProperties o) "n1" ;;
      orderBy <- _addOrderByClause orderBy (endNodeProperties o) "n2" ;;
      ret (if nonempty orderBy
           then "ORDER BY " ++ orderBy ++ " " ++ order_keyword (order o)
           else "")
  | None => ret ""
  end.

(** The test is [(this._limit) ? ... : ...]: an unset limit and the number
    0 are both falsy. *)
Definition limitClause : M string :=
  limit_ <- read _limit ;;
  ret (match limit_ with
       | Some n => if negb (n =? 0) then "LIMIT " ++ Number_toString n else ""
       | None => ""
       end).

(** ** Composite renderers *)

Definition _queryCypherBuilder (populated : bool) : M string :=
  m <- matchCypher ;;
  r <- returnClause populated ;;
  let query := m ++ " " ++ r in
  orderBy <- orderByClause ;;
  limit_ <- limitClause ;;
  let query := if nonempty orderBy then query ++ " " ++ orderBy else query in
  let query := if nonempty limit_ then query ++ " " ++ limit_ else query in
  ret query.

Definition queryCypher : M string := _queryCypherBuilder false.

Definition queryPopulatedCypher : M string := _queryCypherBuilder true.

(** A default parameter [= d] replaces a missing or [undefined] argument. *)
Definition default_to (d v : JSValue) : JSValue :=
  match v with JSUndefined => d | _ => v end.

Definition queryNodesCypher (nodes distinct : JSValue) : M string :=
  let nodes := default_to (JSString "both") nodes in
  let distinct := default_to (JSBool false) distinct in
  m <- matchCypher ;;
  r <- nodesReturnClause nodes distinct ;;
  let query := m ++ " " ++ r in
  orderBy <- orderByClause ;;
  limit_ <- limitClause ;;
  let query := if nonempty orderBy then query ++ " " ++ orderBy else query in
  let query := if nonempty limit_ then query ++ " " ++ limit_ else query in
  ret query.

Definition countCypher : M string :=
  m <- matchCypher ;;
  ret (m ++ " RETURN COUNT(r) as count").

(** ** Calls as data

    A setter call with its actual arguments, so that statements can range
    over "every setter call" and over sequences of calls. *)

Inductive Call : Type :=
| CallSetType (type : JSValue)
| CallStartNode (nodeId label : JSValue)
| CallEndNode (nodeId label : JSValue)
| CallStartNodeWhere (where_ : JSValue)
| CallEndNodeWhere (where_ : JSValue)
| CallRelationWhere (where_ : JSValue)
| CallLimit (limit_ : JSValue)
| CallDescOrderBy (props : JSValue)
| CallAscOrderBy (props startProps endProps : JSValue)
| CallReturnStartNode (props : JSValue)
| CallReturnEndNode (props : JSValue)
| CallReturnRelationNode (props : JSValue).

Definition call (c : Call) : M unit :=
  match c with
  | CallSetType t => set_type t
  | CallStartNode i l => startNode i l
  | CallEndNode i l => endNode i l
  | CallStartNodeWhere v => startNodeWhere v
  | CallEndNodeWhere v => endNodeWhere v
  | CallRelationWhere v => relationWhere v
  | CallLimit v => limit v
  | CallDescOrderBy p => descOrderBy p
  | CallAscOrderBy p s e => ascOrderBy p s e
  | CallReturnStartNode p => returnStartNode p
  | CallReturnEndNode p => returnEndNode p
  | CallReturnRelationNode p => returnRelationNode p
  end.

(** A chain [q.c1(..).c2(..)...]. *)
Fixpoint chain (cs : list Call) : M unit :=
  match cs with
  | [] => ret tt
  | c :: rest => call c ;;; chain rest
  end.

Definition is_order_call (c : Call) : bool :=
  match c with
  | CallDescOrderBy _ | CallAscOrderBy _ _ _ => true
  | _ => false
  end.

Definition is_none {A : Type} (o : option A) : bool :=
  match o with None => true | Some _ => false end.

(** The argument types each setter declares: an integer id or limit, a
    string label, a non-empty string type, [null] or a filter for the where
    setters, a valid property list for projections and orderings. *)
Definition valid_type_arg (v : JSValue) : bool :=
  match isString v with Some s => nonempty s | None => false end.

Definition valid_where_arg (v : JSValue) : bool :=
  eq_null v || instanceof_OGMNeoWhere v.

(** Every argument of the call is of invalid type. *)
Definition args_invalid (c : Call) : bool :=
  match c with
  | CallSetType t => negb (valid_type_arg t)
  | CallStartNode i l | CallEndNode i l => is_none (isInteger i) && is_none (isString l)
  | CallStartNodeWhere v | CallEndNodeWhere v | CallRelationWhere v => negb (valid_where_arg v)
  | CallLimit v => is_none (isInteger v)
  | CallDescOrderBy p => negb (isValidPropertiesArray p)
  | CallAscOrderBy p s e =>
      negb (isValidPropertiesArray p) && negb (isValidPropertiesArray s)
      && negb (isValidPropertiesArray e)
  | CallReturnStartNode p | CallReturnEndNode p | CallReturnRelationNode p =>
      negb (isValidPropertiesArray p)
  end.

(** The object literal an ordering call builds. *)
Definition descriptor_of (c : Call) : option OrderBy :=
  match c with
  | CallDescOrderBy p =>
      Some {| properties := p; startNodeProperties := JSUndefined;
              endNodeProperties := JSUndefined; order := DESC |}
  | CallAscOrderBy p s e =>
      Some {| properties := p; startNodeProperties := default_null s;
              endNodeProperties := default_null e; order := ASC |}
  | _ => None
  end.

(** States a program can build: a constructor call followed by setter
    calls. *)
Definition reachable (w : World) : Prop :=
  exists (type : JSValue) (h : Heap) (cs : list Call),
    w = exec (chain cs) (create type h).

(** ** Reference renderings, following the wording of the specification *)

(** [[:label]]: the token is a colon and the name, or nothing. *)
Definition label_token (o : option string) : string :=
  match o with Some l => ":" ++ l | None => "" end.

Definition match_pattern (q : OGMNeoRelationQuery) : string :=
  "MATCH p=(n1" ++ label_token (_startNodeLabel q) ++ ")-[r"
  ++ label_token (_type q) ++ "]->(n2" ++ label_token (_endNodeLabel q) ++ ")".

Definition opt_list {A : Type} (o : option A) : list A :=
  match o with Some a => [a] | None => [] end.

Definition id_term (var : string) (id : option Z) : list string :=
  opt_list (option_map (fun z => "ID(" ++ var ++ ") = " ++ Number_toString z) id).

Definition filter_term (h : Heap) (slot : WhereSlot) : list string :=
  match slot with SlotWhere a => [clause (h a)] | _ => [] end.

Definition id_terms (w : World) : list string :=
  id_term "n1" (_startNodeId (this w)) ++ id_term "n2" (_endNodeId (this w)).

Definition filter_terms (w : World) : list string :=
  filter_term (heap w) (_relationWhere (this w))
  ++ filter_term (heap w) (_startNodeWhere (this w))
  ++ filter_term (heap w) (_endNodeWhere (this w)).

(** The terms of the WHERE conjunction that are present, in order. *)
Definition where_terms (w : World) : list string := id_terms w ++ filter_terms w.

Definition order_part (props : JSValue) (var : string) : list string :=
  if isValidPropertiesArray props then [parsePropertiesArray props var] else [].

(** The property lists of an ordering that are present and valid, rendered,
    in order. *)
Definition order_parts (o : OrderBy) : list string :=
  order_part (properties o) "r"
  ++ order_part (startNodeProperties o) "n1"
  ++ order_part (endNodeProperties o) "n2".

(** A projection, or the bare variable when none is set. *)
Definition projection (o : option string) (var : string) : string :=
  match o with Some p => p | None => var end.

(** A projection field is unset or holds a non-empty string. *)
Definition projection_ok (o : option string) : bool :=
  match o with Some p => nonempty p | None => true end.

(** Every projection that is set is a non-empty string. *)
Definition wf_query (q : OGMNeoRelationQuery) : bool :=
  projection_ok (_returnRelation q) && projection_ok (_returnStart q)
  && projection_ok (_returnEnd q).

(** The builder with its ordering, limit and projections replaced. *)
Definition with_presentation (ob : option OrderBy) (lim : option Z)
    (rs re rr : option string) (w : World) : World :=
  {| heap := heap w;
     this := assign_orderBy ob (assign_limit lim (assign_returnStart rs
               (assign_returnEnd re (assign_returnRelation rr (this w))))) |}.

(** Two consecutive calls of one method, with both results. *)
Definition twice {A : Type} (m : M A) : M (A * A) :=
  a1 <- m ;; a2 <- m ;; ret (a1, a2).

(** Appending with a separator that is dropped after an empty accumulator:
    the step shared by [_concatWhereClause] and [_addOrderByClause]. *)
Definition add_sep (sep acc new : string) : string :=
  acc ++ (if nonempty acc then sep else "") ++ new.

(** The tail shared by the three full renderers: the optional ORDER BY and
    LIMIT clauses, each after one space. *)
Definition order_limit_tail (w : World) : string :=
  (if nonempty (eval orderByClause w) then " " ++ eval orderByClause w else "")
  ++ (if nonempty (eval limitClause w) then " " ++ eval limitClause w else "").

(** [m] leaves the world as it found it. *)
Definition preserves {A : Type} (m : M A) : Prop := forall w, exec m w = w.

(** ** Sample objects *)

(** A store whose filters all test [name = 'x'] on their variable. *)
Definition sample_heap : Heap :=
  fun _ => {| variable := "n"; fragment := fun v => v ++ ".name = 'x'" |}.

Definition num (z : Z) : JSValue := JSNum (NumInt z).

(** [new OGMNeoRelationQuery('T')] *)
Definition sample_T : World := create (JSString "T") sample_heap.

(** [create('T').startNode(3, 'L').relationWhere(f).endNodeWhere(g)] *)
Definition sample_filtered : World :=
  exec (chain [CallStartNode (num 3) (JSString "L");
               CallRelationWhere (JSWhere 0%nat);
               CallEndNodeWhere (JSWhere 1%nat)]) sample_T.

(** [create('T').ascOrderBy('name')] *)
Definition sample_ordered : World :=
  exec (chain [CallAscOrderBy (JSString "name") JSUndefined JSUndefined]) sample_T.

(** [create('T').returnRelationNode(['a','b']).returnEndNode('c')] *)
Definition sample_projected : World :=
  exec (chain [CallReturnRelationNode (JSArray [JSString "a"; JSString "b"]);
               CallReturnEndNode (JSString "c")]) sample_T.

(** ** Vocabulary for the further properties *)

(** A clause appended to a query: one space and the clause, or nothing when
    the clause is empty. *)
Definition opt_clause (s : string) : string :=
  if nonempty s then " " ++ s else "".

(** The two tests of [nodesReturnClause] on its [nodes] argument. *)
Definition selects_start (nodes : JSValue) : bool :=
  negb (truthy nodes) || strict_eq_string nodes "start" || strict_eq_string nodes "both".

Definition selects_end (nodes : JSValue) : bool :=
  negb (truthy nodes) || strict_eq_string nodes "end" || strict_eq_string nodes "both".

Definition distinct_keyword (distinct : JSValue) : string :=
  if truthy distinct then "DISTINCT " else "".

Definition is_some {A : Type} (o : option A) : bool :=
  match o with Some _ => true | None => false end.

Definition is_where_call (c : Call) : bool :=
  match c with
  | CallStartNodeWhere _ | CallEndNodeWhere _ | CallRelationWhere _ => true
  | _ => false
  end.

(** The group of fields a setter may assign: two calls with different
    footprints write different fields of the builder. *)
Definition footprint (c : Call) : nat :=
  match c with
  | CallSetType _ => 0
  | CallStartNode _ _ => 1
  | CallEndNode _ _ => 2
  | CallStartNodeWhere _ => 3
  | CallEndNodeWhere _ => 4
  | CallRelationWhere _ => 5
  | CallLimit _ => 6
  | CallDescOrderBy _ | CallAscOrderBy _ _ _ => 7
  | CallReturnStartNode _ => 8
  | CallReturnEndNode _ => 9
  | CallReturnRelationNode _ => 10
  end%nat.

(** Setters that only concern what is returned and how: ordering, limit and
    projections. *)
Definition is_presentation_call (c : Call) : bool :=
  match c with
  | CallLimit _ | CallDescOrderBy _ | CallAscOrderBy _ _ _
  | CallReturnStartNode _ | CallReturnEndNode _ | CallReturnRelationNode _ => true
  | _ => false
  end.

(** The pattern variables a where setter can stamp on a filter. *)
Definition role_variables : list string := ["n1"; "n2"; "r"].

(** The three roles a filter can be given, with the setter, the field and
    the pattern variable of each. *)
Inductive Role : Type := RoleStart | RoleEnd | RoleRelation.

Definition where_call (role : Role) (where_ : JSValue) : Call :=
  match role with
  | RoleStart => CallStartNodeWhere where_
  | RoleEnd => CallEndNodeWhere where_
  | RoleRelation => CallRelationWhere where_
  end.

Definition role_variable (role : Role) : string :=
  match role with RoleStart => "n1" | RoleEnd => "n2" | RoleRelation => "r" end.

Definition role_slot (role : Role) (q : OGMNeoRelationQuery) : WhereSlot :=
  match role with
  | RoleStart => _startNodeWhere q
  | RoleEnd => _endNodeWhere q
  | RoleRelation => _relationWhere q
  end.

(** Every constraint that is set in [q] is set in [q'] (the three filter
    fields, which [null] clears, are not among them). *)
Definition keeps_constraints (q q' : OGMNeoRelationQuery) : Prop :=
  forall set_in : OGMNeoRelationQuery -> bool,
    In set_in
      [ (fun x => is_some (_type x));
        (fun x => is_some (_startNodeId x));
        (fun x => is_some (_startNodeLabel x));
        (fun x => is_some (_endNodeId x));
        (fun x => is_some (_endNodeLabel x));
        (fun x => is_some (_limit x));
        (fun x => is_some (_orderBy x));
        (fun x => is_some (_returnStart x));
        (fun x => is_some (_returnEnd x));
        (fun x => is_some (_returnRelation x)) ] ->
    set_in q = true -> set_in q' = true.

(** ** Proof automation *)

(** Case analysis on the guards of a setter body. *)
Ltac setter_cases :=
  repeat match goal with
         | |- context [match isInteger ?v with _ => _ end] => destruct (isInteger v)
         | |- context [match isString ?v with _ => _ end] => destruct (isString v)
         | |- context [if isValidPropertiesArray ?v then _ else _] =>
             destruct (isValidPropertiesArray v)
         | |- context [if negb (?s =? "")%string then _ else _] =>
             destruct (negb (s =? "")%string)
         end.

(** ** Strings *)

Lemma append_nil_r (s : string) : s ++ "" = s.
Proof. induction s as [|c s IH]; simpl; [reflexivity | now rewrite IH]. Qed.

Lemma append_assoc (s t u : string) : (s ++ t) ++ u = s ++ (t ++ u).
Proof. induction s as [|c s IH]; simpl; [reflexivity | now rewrite IH]. Qed.

Lemma nonempty_true (s : string) : nonempty s = true <-> s <> "".
Proof.
  unfold nonempty. rewrite negb_true_iff. apply String.eqb_neq.
Qed.

Lemma nonempty_false (s : string) : nonempty s = false <-> s = "".
Proof.
  unfold nonempty. rewrite negb_false_iff. apply String.eqb_eq.
Qed.

Lemma nonempty_app_l (s t : string) : nonempty s = true -> nonempty (s ++ t) = true.
Proof. destruct s; simpl; [discriminate | reflexivity]. Qed.

Lemma nonempty_app_r (s t : string) : nonempty t = true -> nonempty (s ++ t) = true.
Proof. destruct s; simpl; [trivial | reflexivity]. Qed.

Lemma nonempty_join (sep p : string) (ps : list string) :
  nonempty p = true -> nonempty (join sep (p :: ps)) = true.
Proof.
  intros Hp. destruct ps; simpl; [assumption | now apply nonempty_app_l].
Qed.

Lemma join_cons_app (sep a t : string) (ts : list string) :
  join sep ((a ++ sep ++ t) :: ts) = join sep (a :: t :: ts).
Proof.
  destruct ts as [|t' ts]; simpl.
  - reflexivity.
  - now rewrite !append_assoc.
Qed.

Lemma fold_add_sep (sep : string) (ts : list string) :
  forallb nonempty ts = true ->
  forall acc,
    fold_left (add_sep sep) ts acc
    = join sep (if nonempty acc then acc :: ts else ts).
Proof.
  induction ts as [|t ts IH]; intros Hall acc; simpl.
  - destruct (nonempty acc) eqn:E; [reflexivity | now apply nonempty_false in E].
  - simpl in Hall. apply andb_true_iff in Hall as [Ht Hts].
    rewrite (IH Hts). unfold add_sep at 1 2.
    destruct (nonempty acc) eqn:E.
    + rewrite (nonempty_app_l _ _ E). apply join_cons_app.
    + apply nonempty_false in E. subst acc. simpl. now rewrite Ht.
Qed.

Lemma fold_add_sep_nil (sep : string) (ts : list string) :
  forallb nonempty ts = true ->
  fold_left (add_sep sep) ts "" = join sep ts.
Proof. intros H. now rewrite (fold_add_sep sep ts H). Qed.

Lemma nonempty_join_all (sep : string) (ts : list string) :
  forallb nonempty ts = true -> ts <> [] -> nonempty (join sep ts) = true.
Proof.
  destruct ts as [|t ts]; [easy|]. simpl forallb. intros H _.
  apply andb_true_iff in H as [Ht _]. now apply nonempty_join.
Qed.

(** ** Methods that only read *)

Lemma preserves_ret {A : Type} (a : A) : preserves (ret a).
Proof. intros w. reflexivity. Qed.

Lemma preserves_read {A : Type} (f : OGMNeoRelationQuery -> A) : preserves (read f).
Proof. intros w. reflexivity. Qed.

Lemma preserves_read_clause (a : addr) : preserves (read_clause a).
Proof. intros w. reflexivity. Qed.

Lemma preserves_bind {A B : Type} (m : M A) (k : A -> M B) :
  preserves m -> (forall a, preserves (k a)) -> preserves (bind m k).
Proof.
  intros Hm Hk w. unfold exec, bind. specialize (Hm w). unfold exec in Hm.
  destruct (m w) as [a w']. simpl in Hm. subst w'. apply Hk.
Qed.

Lemma eval_bind {A B : Type} (m : M A) (k : A -> M B) (w : World) :
  preserves m -> eval (bind m k) w = eval (k (eval m w)) w.
Proof.
  intros Hm. unfold eval, bind. specialize (Hm w). unfold exec in Hm.
  destruct (m w) as [a w']. simpl in *. now subst w'.
Qed.

Create HintDb readonly.

#[local] Hint Resolve preserves_ret preserves_read preserves_read_clause : readonly.

Ltac readonly :=
  repeat first
    [ progress cbv zeta
    | solve [auto with readonly nocore]
    | apply preserves_ret
    | apply preserves_read
    | apply preserves_read_clause
    | apply preserves_bind; [| intros ?]
    | match goal with
      | |- preserves (match ?x with _ => _ end) => destruct x
      | |- preserves (if ?b then _ else _) => destruct b
      end ].

Lemma preserves_concatWhereClause (a b : string) : preserves (_concatWhereClause a b).
Proof. unfold _concatWhereClause. readonly. Qed.
#[local] Hint Resolve preserves_concatWhereClause : readonly.

Lemma preserves_whereCypher : preserves whereCypher.
Proof. unfold whereCypher. readonly. Qed.

Lemma preserves_startNodeClause : preserves _startNodeClause.
Proof. unfold _startNodeClause. readonly. Qed.

Lemma preserves_endNodeClause : preserves _endNodeClause.
Proof. unfold _endNodeClause. readonly. Qed.

Lemma preserves_relationClause : preserves _relationClause.
Proof. unfold _relationClause, get_type. readonly. Qed.
#[local] Hint Resolve preserves_whereCypher preserves_startNodeClause
  preserves_endNodeClause preserves_relationClause : readonly.

Lemma preserves_matchCypher : preserves matchCypher.
Proof. unfold matchCypher. readonly. Qed.

Lemma preserves_returnClause (populated : bool) : preserves (returnClause populated).
Proof. unfold returnClause. readonly. Qed.

Lemma preserves_nodesReturnClause (nodes distinct : JSValue) :
  preserves (nodesReturnClause nodes distinct).
Proof. unfold nodesReturnClause. readonly. Qed.

Lemma preserves_addOrderByClause (c : string) (p : JSValue) (v : string) :
  preserves (_addOrderByClause c p v).
Proof. unfold _addOrderByClause. readonly. Qed.
#[local] Hint Resolve preserves_matchCypher preserves_returnClause
  preserves_nodesReturnClause preserves_addOrderByClause : readonly.

Lemma preserves_orderByClause : preserves orderByClause.
Proof. unfold orderByClause. readonly. Qed.

Lemma preserves_limitClause : preserves limitClause.
Proof. unfold limitClause. readonly. Qed.
#[local] Hint Resolve preserves_orderByClause preserves_limitClause : readonly.

Lemma preserves_queryCypherBuilder (populated : bool) :
  preserves (_queryCypherBuilder populated).
Proof. unfold _queryCypherBuilder. readonly. Qed.

Lemma preserves_queryNodesCypher (nodes distinct : JSValue) :
  preserves (queryNodesCypher nodes distinct).
Proof. unfold queryNodesCypher. readonly. Qed.

Lemma preserves_countCypher : preserves countCypher.
Proof. unfold countCypher. readonly. Qed.

(** Running a read-only method twice gives the same answer twice. *)
Lemma preserves_repeatable {A : Type} (m : M A) (w : World) :
  preserves m -> eval m (exec m w) = eval m w.
Proof. intros H. now rewrite H. Qed.

(** ** What the fragment renderers compute *)

Lemma eval_whereCypher_fold (w : World) :
  eval whereCypher w
  = (let body := fold_left (add_sep " AND ") (where_terms w) "" in
     if nonempty body then "WHERE " ++ body else "").
Proof.
  destruct w as [h [ty sid sl eid el sw ew rw lim ob rs re rr]].
  unfold where_terms, id_terms, filter_terms, id_term, filter_term.
  unfold eval, whereCypher, bind, read, read_clause, _concatWhereClause, ret.
  destruct sid, eid, rw, sw, ew; reflexivity.
Qed.

Lemma id_term_nonempty (var : string) (id : option Z) :
  forallb nonempty (id_term var id) = true.
Proof. destruct id; reflexivity. Qed.

Lemma where_terms_nonempty (w : World) :
  forallb nonempty (filter_terms w) = true ->
  forallb nonempty (where_terms w) = true.
Proof.
  intros H. unfold where_terms, id_terms.
  now rewrite !forallb_app, !id_term_nonempty, H.
Qed.

Lemma eval_whereCypher (w : World) :
  forallb nonempty (filter_terms w) = true ->
  eval whereCypher w
  = match where_terms w with
    | [] => ""
    | _ :: _ => "WHERE " ++ join " AND " (where_terms w)
    end.
Proof.
  intros H. apply where_terms_nonempty in H.
  rewrite eval_whereCypher_fold, (fold_add_sep_nil _ _ H). cbv zeta.
  destruct (where_terms w) as [|t ts] eqn:E; [reflexivity|].
  now rewrite (nonempty_join_all " AND " (t :: ts) H).
Qed.

Lemma eval_matchCypher (w : World) :
  eval matchCypher w = match_pattern (this w) ++ " " ++ eval whereCypher w.
Proof.
  unfold matchCypher.
  rewrite eval_bind by readonly. rewrite eval_bind by readonly.
  rewrite eval_bind by readonly. rewrite eval_bind by readonly.
  unfold match_pattern, label_token.
  unfold _startNodeClause, _endNodeClause, _relationClause, get_type.
  unfold eval at 1 2 3 4, bind, read, ret. simpl.
  repeat (rewrite append_assoc; simpl). reflexivity.
Qed.

Lemma eval_returnClause (populated : bool) (w : World) :
  eval (returnClause populated) w
  = "RETURN " ++ or_default (_returnRelation (this w)) "r"
    ++ (if populated
        then ", " ++ or_default (_returnStart (this w)) "n1"
             ++ ", " ++ or_default (_returnEnd (this w)) "n2"
        else "").
Proof.
  unfold eval, returnClause, bind, read, ret.
  destruct populated; simpl.
  - now rewrite !append_assoc.
  - now rewrite append_nil_r.
Qed.

Lemma eval_addOrderByClause (acc : string) (props : JSValue) (var : string) (w : World) :
  eval (_addOrderByClause acc props var) w
  = fold_left (add_sep ", ") (order_part props var) acc.
Proof.
  unfold _addOrderByClause, order_part.
  destruct (isValidPropertiesArray props); reflexivity.
Qed.

Lemma eval_orderByClause_fold (w : World) :
  eval orderByClause w
  = match _orderBy (this w) with
    | Some o =>
        let body := fold_left (add_sep ", ") (order_parts o) "" in
        if nonempty body
        then "ORDER BY " ++ body ++ " " ++ order_keyword (order o)
        else ""
    | None => ""
    end.
Proof.
  unfold orderByClause. rewrite eval_bind by readonly.
  unfold eval at 2, read. simpl.
  destruct (_orderBy (this w)) as [o|]; [|reflexivity].
  do 3 (rewrite eval_bind by readonly; rewrite eval_addOrderByClause).
  unfold order_parts. now rewrite !fold_left_app.
Qed.

Lemma eval_limitClause (w : World) :
  eval limitClause w
  = match _limit (this w) with
    | Some n => if negb (n =? 0) then "LIMIT " ++ Number_toString n else ""
    | None => ""
    end.
Proof. reflexivity. Qed.

Lemma append_tail (q a b : string) :
  (if nonempty b
   then (if nonempty a then q ++ " " ++ a else q) ++ " " ++ b
   else (if nonempty a then q ++ " " ++ a else q))
  = q ++ (if nonempty a then " " ++ a else "") ++ (if nonempty b then " " ++ b else "").
Proof.
  destruct (nonempty a), (nonempty b);
    rewrite ?append_assoc, ?append_nil_r; simpl; rewrite ?append_nil_r; reflexivity.
Qed.

Lemma eval_queryCypherBuilder (populated : bool) (w : World) :
  eval (_queryCypherBuilder populated) w
  = eval matchCypher w ++ " " ++ eval (returnClause populated) w
    ++ order_limit_tail w.
Proof.
  unfold _queryCypherBuilder.
  do 4 rewrite eval_bind by readonly. cbv zeta.
  unfold eval at 1, ret. simpl fst.
  rewrite append_tail. unfold order_limit_tail.
  now rewrite !append_assoc.
Qed.

Lemma eval_queryNodesCypher (nodes distinct : JSValue) (w : World) :
  eval (queryNodesCypher nodes distinct) w
  = eval matchCypher w ++ " "
    ++ eval (nodesReturnClause (default_to (JSString "both") nodes)
               (default_to (JSBool false) distinct)) w
    ++ order_limit_tail w.
Proof.
  unfold queryNodesCypher. cbv zeta.
  do 4 rewrite eval_bind by readonly.
  unfold eval at 1, ret. simpl fst.
  rewrite append_tail. unfold order_limit_tail.
  now rewrite !append_assoc.
Qed.

Lemma eval_countCypher (w : World) :
  eval countCypher w = eval matchCypher w ++ " RETURN COUNT(r) as count".
Proof.
  unfold countCypher. rewrite eval_bind by readonly. reflexivity.
Qed.

Lemma eval_nodesReturnClause (nodes distinct : JSValue) (w : World) :
  exists rest, eval (nodesReturnClause nodes distinct) w = "RETURN " ++ rest.
Proof.
  unfold nodesReturnClause. cbv zeta.
  do 2 rewrite eval_bind by readonly.
  eexists. reflexivity.
Qed.

(** ** The WHERE fragment *)

(** C1: the WHERE fragment is the conjunction, joined by [" AND "], of
    exactly the terms that are present, in the fixed order start-id equality,
    end-id equality, relation filter, start filter, end filter; with no term
    present the fragment is empty, without the WHERE keyword.  The filters
    held by the builder are assumed to render non-empty clauses, as the
    filter contract says. *)
Theorem whereCypher_conjunction (w : World) :
  forallb nonempty (filter_terms w) = true ->
  where_terms w
  = (id_term "n1" (_startNodeId (this w))
     ++ id_term "n2" (_endNodeId (this w))
     ++ filter_term (heap w) (_relationWhere (this w))
     ++ filter_term (heap w) (_startNodeWhere (this w))
     ++ filter_term (heap w) (_endNodeWhere (this w)))%list
  /\ (where_terms w = [] -> eval whereCypher w = "")
  /\ (where_terms w <> [] ->
      eval whereCypher w = "WHERE " ++ join " AND " (where_terms w)).
Proof.
  intros H. split; [|split].
  - unfold where_terms, id_terms, filter_terms. now rewrite <- app_assoc.
  - intros E. rewrite (eval_whereCypher w H), E. reflexivity.
  - intros NE. rewrite (eval_whereCypher w H).
    destruct (where_terms w); [contradiction | reflexivity].
Qed.

Lemma whereCypher_conjunction_witness :
  forallb nonempty (filter_terms sample_filtered) = true
  /\ where_terms sample_filtered
     = ["ID(n1) = 3"; "r.name = 'x'"; "n2.name = 'x'"]
  /\ eval whereCypher sample_filtered
     = "WHERE ID(n1) = 3 AND r.name = 'x' AND n2.name = 'x'".
Proof.
  assert (H : forallb nonempty (filter_terms sample_filtered) = true)
    by reflexivity.
  destruct (whereCypher_conjunction sample_filtered H) as (_ & _ & Hsome).
  split; [exact H | split; [reflexivity|]].
  rewrite Hsome; [reflexivity | discriminate].
Defined.

(** ** The MATCH pattern *)

Lemma label_token_empty (o : option string) : label_token o = "" <-> o = None.
Proof. destruct o; simpl; split; congruence. Qed.

(** C3: every rendered query starts with
    [MATCH p=(n1[:startLabel])-[r[:type]]->(n2[:endLabel])], followed by a
    space and the WHERE fragment; each of the three tokens is a colon and
    the name when the constraint is set, and is left out, colon included,
    exactly when it is unset. *)
Theorem match_clause_shape (w : World) :
  match_pattern (this w)
  = "MATCH p=(n1" ++ label_token (_startNodeLabel (this w))
    ++ ")-[r" ++ label_token (_type (this w))
    ++ "]->(n2" ++ label_token (_endNodeLabel (this w)) ++ ")"
  /\ (forall l, label_token (Some l) = ":" ++ l)
  /\ (forall o, label_token o = "" <-> o = None)
  /\ eval matchCypher w = match_pattern (this w) ++ " " ++ eval whereCypher w
  /\ (exists rest,
        eval queryCypher w
        = match_pattern (this w) ++ " " ++ eval whereCypher w ++ " RETURN " ++ rest)
  /\ (exists rest,
        eval queryPopulatedCypher w
        = match_pattern (this w) ++ " " ++ eval whereCypher w ++ " RETURN " ++ rest)
  /\ (forall nodes distinct, exists rest,
        eval (queryNodesCypher nodes distinct) w
        = match_pattern (this w) ++ " " ++ eval whereCypher w ++ " RETURN " ++ rest)
  /\ (exists rest,
        eval countCypher w
        = match_pattern (this w) ++ " " ++ eval whereCypher w ++ " RETURN " ++ rest).
Proof.
  repeat split.
  - now apply label_token_empty.
  - now apply label_token_empty.
  - apply eval_matchCypher.
  - unfold queryCypher. rewrite eval_queryCypherBuilder, eval_matchCypher,
      eval_returnClause. eexists. rewrite !append_assoc. simpl. reflexivity.
  - unfold queryPopulatedCypher. rewrite eval_queryCypherBuilder, eval_matchCypher,
      eval_returnClause. eexists. rewrite !append_assoc. simpl. reflexivity.
  - intros nodes distinct. rewrite eval_queryNodesCypher, eval_matchCypher.
    destruct (eval_nodesReturnClause (default_to (JSString "both") nodes)
                (default_to (JSBool false) distinct) w) as [rest ->].
    eexists. rewrite !append_assoc. simpl. reflexivity.
  - rewrite eval_countCypher, eval_matchCypher.
    eexists. rewrite !append_assoc. simpl. reflexivity.
Qed.

(** ** The count query *)

Lemma where_terms_with_presentation ob lim rs re rr (w : World) :
  where_terms (with_presentation ob lim rs re rr w) = where_terms w.
Proof. reflexivity. Qed.

(** C4, as the code has it: the count renderer produces the match pattern
    and the WHERE fragment followed by exactly [RETURN COUNT(r) as count]
    (the keyword [as] in lower case), and its output is the same whatever
    the ordering, the limit and the three projections are set to. *)
Theorem countCypher_shape (w : World) :
  eval countCypher w
  = match_pattern (this w) ++ " " ++ eval whereCypher w
    ++ " RETURN COUNT(r) as count"
  /\ (forall ob lim rs re rr,
        eval countCypher (with_presentation ob lim rs re rr w)
        = eval countCypher w).
Proof.
  split.
  - rewrite eval_countCypher, eval_matchCypher. now rewrite !append_assoc.
  - intros. rewrite !eval_countCypher, !eval_matchCypher, !eval_whereCypher_fold.
    rewrite where_terms_with_presentation. reflexivity.
Qed.

(** C4, as stated, fails: on a fresh builder the output is
    [MATCH p=(n1)-[r]->(n2)  RETURN COUNT(r) as count], in which the text
    [RETURN COUNT(r) AS count] does not occur. *)
Lemma countCypher_lowercase_as :
  eval countCypher (create JSUndefined sample_heap)
  = "MATCH p=(n1)-[r]->(n2)  RETURN COUNT(r) as count"
  /\ index 0 "RETURN COUNT(r) AS count"
       (eval countCypher (create JSUndefined sample_heap)) = None
  /\ eval countCypher (create JSUndefined sample_heap)
     <> eval matchCypher (create JSUndefined sample_heap)
        ++ " RETURN COUNT(r) AS count".
Proof.
  split; [reflexivity | split; [reflexivity |]].
  intros H. vm_compute in H. discriminate H.
Qed.

(** ** The limit *)

Lemma exec_limit (v : JSValue) (w : World) :
  exec (limit v) w
  = match isInteger v with
    | Some n => {| heap := heap w; this := assign_limit (Some n) (this w) |}
    | None => w
    end.
Proof. unfold limit. destruct (isInteger v); reflexivity. Qed.

(** The part of C5 that the code satisfies: the setter stores exactly the
    integers, and a LIMIT clause is rendered exactly for a stored limit
    other than 0. *)
Lemma limitClause_nonzero (w : World) :
  eval limitClause w <> ""
  <-> exists n, _limit (this w) = Some n /\ n <> 0.
Proof.
  rewrite eval_limitClause. destruct (_limit (this w)) as [n|].
  - destruct (Z.eqb_spec n 0) as [->|Hn]; simpl.
    + split; [congruence | intros (n & [= <-] & Hn); contradiction].
    + split; [intros _; now exists n | discriminate].
  - split; [congruence | intros (n & [=] & _)].
Qed.

(** C5 at [limit(0)]: the setter stores the integer 0, the limit clause is
    empty nonetheless, and the rendered query carries no LIMIT. *)
Theorem limit_zero_not_rendered (w : World) :
  _limit (this (exec (limit (num 0)) w)) = Some 0
  /\ eval limitClause (exec (limit (num 0)) w) = ""
  /\ eval (limit (num 0) ;;; queryCypher) sample_T
     = "MATCH p=(n1)-[r:T]->(n2)  RETURN r"
  /\ eval (limit (num 5) ;;; queryCypher) sample_T
     = "MATCH p=(n1)-[r:T]->(n2)  RETURN r LIMIT 5".
Proof. repeat split. Qed.

(** ** Running setters *)

Lemma exec_bind {A B : Type} (m : M A) (k : A -> M B) (w : World) :
  exec (bind m k) w = exec (k (eval m w)) (exec m w).
Proof. unfold exec, eval, bind. now destruct (m w). Qed.

Lemma exec_chain_cons (c : Call) (cs : list Call) (w : World) :
  exec (chain (c :: cs)) w = exec (chain cs) (exec (call c) w).
Proof. simpl. now rewrite exec_bind. Qed.

Lemma exec_chain_app (cs cs' : list Call) (w : World) :
  exec (chain (cs ++ cs')) w = exec (chain cs') (exec (chain cs) w).
Proof.
  revert w. induction cs as [|c cs IH]; intros w.
  - reflexivity.
  - rewrite <- app_comm_cons, !exec_chain_cons. apply IH.
Qed.

Lemma exec_order_call (c : Call) (w : World) :
  is_order_call c = true ->
  exec (call c) w
  = {| heap := heap w; this := assign_orderBy (descriptor_of c) (this w) |}.
Proof. destruct c; simpl; intros H; try discriminate H; reflexivity. Qed.

Lemma other_call_keeps_orderBy (c : Call) (w : World) :
  is_order_call c = false ->
  _orderBy (this (exec (call c) w)) = _orderBy (this w).
Proof.
  destruct c; simpl; intros H; try discriminate H;
    unfold set_type, startNode, endNode, startNodeWhere, endNodeWhere,
      relationWhere, limit, returnStartNode, returnEndNode, returnRelationNode;
    try (destruct where_; try destruct b; try destruct n; reflexivity);
    setter_cases; reflexivity.
Qed.

Lemma other_calls_keep_orderBy (cs : list Call) (w : World) :
  forallb (fun c => negb (is_order_call c)) cs = true ->
  _orderBy (this (exec (chain cs) w)) = _orderBy (this w).
Proof.
  revert w. induction cs as [|c cs IH]; intros w H; [reflexivity|].
  simpl in H. apply andb_true_iff in H as [Hc Hcs].
  rewrite exec_chain_cons, (IH _ Hcs).
  apply other_call_keeps_orderBy. now apply negb_true_iff.
Qed.

Lemma orderByClause_depends_on_orderBy (w w' : World) :
  _orderBy (this w) = _orderBy (this w') ->
  eval orderByClause w = eval orderByClause w'.
Proof. intros H. now rewrite !eval_orderByClause_fold, H. Qed.

(** ** Ordering *)

(** C6: after any chain of calls, the ordering descriptor is the object
    built by the last [descOrderBy]/[ascOrderBy] call of the chain, direction
    and property lists alike, whatever was set before it; the ORDER BY clause
    rendered afterwards is the one a fresh builder renders after that call
    alone. *)
Theorem last_ordering_call_wins (before after : list Call) (c : Call) (w : World) :
  is_order_call c = true ->
  forallb (fun c' => negb (is_order_call c')) after = true ->
  _orderBy (this (exec (chain (before ++ c :: after)) w)) = descriptor_of c
  /\ (forall h,
        eval orderByClause (exec (chain (before ++ c :: after)) w)
        = eval orderByClause (exec (call c) {| heap := h; this := empty_query |})).
Proof.
  intros Hc Hafter.
  assert (E : _orderBy (this (exec (chain (before ++ c :: after)) w))
              = descriptor_of c).
  { rewrite exec_chain_app, exec_chain_cons, (other_calls_keep_orderBy _ _ Hafter).
    now rewrite (exec_order_call c _ Hc). }
  split; [exact E|].
  intros h. apply orderByClause_depends_on_orderBy.
  rewrite E. now rewrite (exec_order_call c _ Hc).
Qed.

Lemma last_ordering_call_wins_witness :
  _orderBy (this (exec (chain ([CallAscOrderBy (JSString "a") (JSString "b") (JSString "c");
                                 CallLimit (num 2)]
                                ++ CallDescOrderBy (JSString "d")
                                   :: [CallStartNode (num 1) JSUndefined])) sample_T))
  = Some {| properties := JSString "d"; startNodeProperties := JSUndefined;
            endNodeProperties := JSUndefined; order := DESC |}.
Proof.
  apply (last_ordering_call_wins
           [CallAscOrderBy (JSString "a") (JSString "b") (JSString "c");
            CallLimit (num 2)]
           [CallStartNode (num 1) JSUndefined]
           (CallDescOrderBy (JSString "d")) sample_T); reflexivity.
Defined.

Lemma property_token_nonempty (var p : string) :
  nonempty (property_token var (JSString p)) = true.
Proof. simpl. apply nonempty_app_r. reflexivity. Qed.

Lemma parsePropertiesArray_nonempty (props : JSValue) (var : string) :
  isValidPropertiesArray props = true ->
  nonempty (parsePropertiesArray props var) = true.
Proof.
  destruct props as [| | | |s|elems| |]; simpl; try discriminate.
  - intros _. apply nonempty_app_r. reflexivity.
  - destruct elems as [|e elems]; simpl; [discriminate|].
    destruct e; simpl; try discriminate. intros _.
    change (nonempty (join ", " (property_token var (JSString s)
                                   :: map (property_token var) elems)) = true).
    apply nonempty_join, property_token_nonempty.
Qed.

Lemma order_part_nonempty (props : JSValue) (var : string) :
  forallb nonempty (order_part props var) = true.
Proof.
  unfold order_part. destruct (isValidPropertiesArray props) eqn:E; [|reflexivity].
  simpl. now rewrite (parsePropertiesArray_nonempty _ _ E).
Qed.

Lemma order_parts_nonempty (o : OrderBy) : forallb nonempty (order_parts o) = true.
Proof. unfold order_parts. now rewrite !forallb_app, !order_part_nonempty. Qed.

(** C7: the ORDER BY clause is empty when no ordering descriptor is set;
    otherwise its body is the rendered relation, start-node and end-node
    property lists, in that order, joined by [", "], where a list that is
    absent or not a valid property list is skipped, followed by one space and
    the single direction keyword ASC or DESC; with every list skipped the
    clause is empty. *)
Theorem orderByClause_shape (w : World) :
  (forall o, order_parts o
             = (order_part (properties o) "r"
                ++ order_part (startNodeProperties o) "n1"
                ++ order_part (endNodeProperties o) "n2")%list)
  /\ (forall props var,
        order_part props var
        = if isValidPropertiesArray props
          then [parsePropertiesArray props var] else [])
  /\ isValidPropertiesArray JSUndefined = false
  /\ isValidPropertiesArray JSNull = false
  /\ (forall o, order_keyword (order o) = "ASC" \/ order_keyword (order o) = "DESC")
  /\ eval orderByClause w
     = match _orderBy (this w) with
       | None => ""
       | Some o =>
           match order_parts o with
           | [] => ""
           | _ :: _ =>
               "ORDER BY " ++ join ", " (order_parts o)
               ++ " " ++ order_keyword (order o)
           end
       end.
Proof.
  repeat split.
  - intros o. destruct (order o); [now left | now right].
  - rewrite eval_orderByClause_fold.
    destruct (_orderBy (this w)) as [o|]; [|reflexivity].
    cbv zeta. rewrite (fold_add_sep_nil _ _ (order_parts_nonempty o)).
    destruct (order_parts o) as [|p ps] eqn:E; [reflexivity|].
    rewrite (nonempty_join_all ", " (p :: ps)); [reflexivity | | discriminate].
    rewrite <- E. apply order_parts_nonempty.
Qed.

(** ** Rendering does not write *)

Lemma eval_twice {A : Type} (m : M A) (w : World) :
  preserves m -> eval (twice m) w = (eval m w, eval m w).
Proof.
  intros H. unfold twice.
  rewrite eval_bind by exact H. rewrite eval_bind by exact H. reflexivity.
Qed.

Lemma preserves_twice {A : Type} (m : M A) : preserves m -> preserves (twice m).
Proof. intros H. unfold twice. readonly; exact H. Qed.

(** C8: each of the four render methods leaves the builder (and the filter
    objects it refers to) exactly as it found them, and two consecutive calls
    of the same method with the same arguments return the same string. *)
Theorem render_methods_pure (w : World) :
  exec queryCypher w = w
  /\ exec queryPopulatedCypher w = w
  /\ (forall nodes distinct, exec (queryNodesCypher nodes distinct) w = w)
  /\ exec countCypher w = w
  /\ eval (twice queryCypher) w = (eval queryCypher w, eval queryCypher w)
  /\ eval (twice queryPopulatedCypher) w
     = (eval queryPopulatedCypher w, eval queryPopulatedCypher w)
  /\ (forall nodes distinct,
        eval (twice (queryNodesCypher nodes distinct)) w
        = (eval (queryNodesCypher nodes distinct) w,
           eval (queryNodesCypher nodes distinct) w))
  /\ eval (twice countCypher) w = (eval countCypher w, eval countCypher w).
Proof.
  pose proof (preserves_queryCypherBuilder false) as Hq.
  pose proof (preserves_queryCypherBuilder true) as Hp.
  pose proof preserves_queryNodesCypher as Hn.
  pose proof preserves_countCypher as Hc.
  repeat split; intros;
    first [ apply Hq | apply Hp | apply Hn | apply Hc
          | apply eval_twice; first [ exact Hq | exact Hp | apply Hn | exact Hc ] ].
Qed.

(** ** The RETURN clause *)

Lemma or_default_projection (o : option string) (var : string) :
  projection_ok o = true -> or_default o var = projection o var.
Proof. destruct o as [p|]; simpl; [now intros -> | reflexivity]. Qed.

Lemma wf_query_iff (q : OGMNeoRelationQuery) :
  wf_query q = true
  <-> projection_ok (_returnRelation q) = true
      /\ projection_ok (_returnStart q) = true
      /\ projection_ok (_returnEnd q) = true.
Proof. unfold wf_query. rewrite !andb_true_iff. tauto. Qed.

(** Projections are only ever stored non-empty. *)
Lemma call_keeps_wf (c : Call) (w : World) :
  wf_query (this w) = true -> wf_query (this (exec (call c) w)) = true.
Proof.
  intros H. destruct c; simpl;
    unfold set_type, startNode, endNode, startNodeWhere, endNodeWhere,
      relationWhere, limit, returnStartNode, returnEndNode, returnRelationNode;
    try (destruct where_; try destruct b; try destruct n; exact H);
    try (destruct (isValidPropertiesArray props) eqn:E; [|exact H];
         apply wf_query_iff in H; destruct H as (Hr & Hs & He);
         apply wf_query_iff; simpl;
         rewrite ?(parsePropertiesArray_nonempty _ _ E); auto);
    setter_cases; exact H.
Qed.

Lemma reachable_wf (w : World) : reachable w -> wf_query (this w) = true.
Proof.
  intros (type & h & cs & ->).
  assert (H0 : wf_query (this (create type h)) = true).
  { unfold create, constructor, set_type.
    destruct (isString type) as [s|]; [destruct (negb (s =? "")%string)|];
      reflexivity. }
  revert H0. generalize (create type h). clear type h.
  induction cs as [|c cs IH]; intros w H; [exact H|].
  rewrite exec_chain_cons. apply IH. now apply call_keeps_wf.
Qed.

(** C9: the return clause is [RETURN] and the relation projection, or the
    bare [r] when no relation projection is set; the populated variant adds
    the start-node projection (default [n1]) and then the end-node
    projection (default [n2]), each after [", "].  Stated for builders whose
    stored projections are non-empty, which holds of every builder a program
    can construct. *)
Theorem returnClause_shape (w : World) :
  wf_query (this w) = true ->
  eval (returnClause false) w
  = "RETURN " ++ projection (_returnRelation (this w)) "r"
  /\ eval (returnClause true) w
     = "RETURN " ++ projection (_returnRelation (this w)) "r"
       ++ ", " ++ projection (_returnStart (this w)) "n1"
       ++ ", " ++ projection (_returnEnd (this w)) "n2"
  /\ (forall var, projection None var = var)
  /\ (forall p var, projection (Some p) var = p).
Proof.
  intros H. apply wf_query_iff in H. destruct H as (Hr & Hs & He).
  rewrite !eval_returnClause.
  rewrite (or_default_projection _ "r" Hr), (or_default_projection _ "n1" Hs),
    (or_default_projection _ "n2" He).
  repeat split. now rewrite append_nil_r.
Qed.

Lemma returnClause_shape_witness :
  wf_query (this sample_projected) = true
  /\ eval (returnClause false) sample_projected = "RETURN r.a, r.b"
  /\ eval (returnClause true) sample_projected = "RETURN r.a, r.b, n1, n2.c".
Proof.
  assert (H : wf_query (this sample_projected) = true) by reflexivity.
  destruct (returnClause_shape sample_projected H) as (H1 & H2 & _).
  split; [exact H | split].
  - rewrite H1. reflexivity.
  - rewrite H2. reflexivity.
Defined.

(** ** Labels *)

(** C10: [startNode] and [endNode] store any string as the label, the empty
    string included, whereas the type setter ignores the empty string; a
    stored empty label renders as a colon with nothing after it, [(n1:)] or
    [(n2:)]. *)
Theorem empty_label_dangling_colon (w : World) (nodeId : JSValue) :
  (forall s, _startNodeLabel (this (exec (startNode nodeId (JSString s)) w)) = Some s)
  /\ (forall s, _endNodeLabel (this (exec (endNode nodeId (JSString s)) w)) = Some s)
  /\ exec (set_type (JSString "")) w = w
  /\ eval _startNodeClause (exec (startNode nodeId (JSString "")) w) = "n1:"
  /\ eval _endNodeClause (exec (endNode nodeId (JSString "")) w) = "n2:"
  /\ eval matchCypher (exec (startNode nodeId (JSString "")) w)
     = ("MATCH p=(n1:)-[r" ++ label_token (_type (this w))
        ++ "]->(n2" ++ label_token (_endNodeLabel (this w)) ++ ")")
       ++ " " ++ eval whereCypher (exec (startNode nodeId (JSString "")) w)
  /\ eval matchCypher (exec (endNode nodeId (JSString "")) w)
     = ("MATCH p=(n1" ++ label_token (_startNodeLabel (this w))
        ++ ")-[r" ++ label_token (_type (this w)) ++ "]->(n2:)")
       ++ " " ++ eval whereCypher (exec (endNode nodeId (JSString "")) w).
Proof.
  assert (Hs : forall s,
             _startNodeLabel (this (exec (startNode nodeId (JSString s)) w)) = Some s).
  { intros s. unfold startNode. destruct (isInteger nodeId); reflexivity. }
  assert (He : forall s,
             _endNodeLabel (this (exec (endNode nodeId (JSString s)) w)) = Some s).
  { intros s. unfold endNode. destruct (isInteger nodeId); reflexivity. }
  split; [exact Hs | split; [exact He | split; [reflexivity|] ] ].
  split; [| split; [| split] ].
  - unfold eval, _startNodeClause, bind, read, ret. cbn [fst snd]. now rewrite Hs.
  - unfold eval, _endNodeClause, bind, read, ret. cbn [fst snd]. now rewrite He.
  - rewrite eval_matchCypher. f_equal. unfold match_pattern. rewrite Hs.
    unfold startNode. destruct (isInteger nodeId); reflexivity.
  - rewrite eval_matchCypher. f_equal. unfold match_pattern. rewrite He.
    unfold endNode. destruct (isInteger nodeId); reflexivity.
Qed.

(** ** Arguments of invalid type *)

Lemma exec_invalid_call (c : Call) (w : World) :
  is_order_call c = false -> args_invalid c = true -> exec (call c) w = w.
Proof.
  destruct c; simpl; intros Ho Hi; try discriminate Ho.
  - unfold set_type, valid_type_arg, nonempty in *.
    destruct (isString type) as [s|]; [|reflexivity].
    apply negb_true_iff in Hi. now rewrite Hi.
  - unfold startNode. apply andb_true_iff in Hi as [Hn Hl].
    destruct (isInteger nodeId); [discriminate Hn|].
    destruct (isString label); [discriminate Hl | reflexivity].
  - unfold endNode. apply andb_true_iff in Hi as [Hn Hl].
    destruct (isInteger nodeId); [discriminate Hn|].
    destruct (isString label); [discriminate Hl | reflexivity].
  - unfold startNodeWhere, valid_where_arg in *.
    apply negb_true_iff in Hi. now rewrite Hi.
  - unfold endNodeWhere, valid_where_arg in *.
    apply negb_true_iff in Hi. now rewrite Hi.
  - unfold relationWhere, valid_where_arg in *.
    apply negb_true_iff in Hi. now rewrite Hi.
  - unfold limit. destruct (isInteger limit_); [discriminate Hi | reflexivity].
  - unfold returnStartNode. apply negb_true_iff in Hi. now rewrite Hi.
  - unfold returnEndNode. apply negb_true_iff in Hi. now rewrite Hi.
  - unfold returnRelationNode. apply negb_true_iff in Hi. now rewrite Hi.
Qed.

(** C2, as the code has it: a call of any setter other than [descOrderBy]
    and [ascOrderBy] whose arguments are all of invalid type leaves the
    builder, the filter objects and so every rendered query unchanged;
    [descOrderBy] and [ascOrderBy] do not look at their arguments and replace
    the ordering descriptor even then (nothing else changes). *)
Theorem invalid_arguments_ignored (c : Call) (w : World) :
  args_invalid c = true ->
  exec (call c) w
  = (if is_order_call c
     then {| heap := heap w; this := assign_orderBy (descriptor_of c) (this w) |}
     else w)
  /\ (is_order_call c = false ->
      forall (A : Type) (render : M A), eval render (exec (call c) w) = eval render w).
Proof.
  intros Hi. destruct (is_order_call c) eqn:Ho.
  - split; [now apply exec_order_call | discriminate].
  - split; [now apply exec_invalid_call|].
    intros _ A render. now rewrite (exec_invalid_call c w Ho Hi).
Qed.

Lemma invalid_arguments_ignored_witness :
  args_invalid (CallStartNode (JSString "7") (num 7)) = true
  /\ exec (call (CallStartNode (JSString "7") (num 7))) sample_ordered
     = sample_ordered.
Proof.
  split; [reflexivity|].
  apply (invalid_arguments_ignored
           (CallStartNode (JSString "7") (num 7)) sample_ordered).
  reflexivity.
Defined.

(** C2, as stated, fails for [descOrderBy]: on the builder
    [create('T').ascOrderBy('name')] the call [descOrderBy(42)], whose
    argument is not a valid property list, replaces the ordering descriptor,
    and the rendered query loses its ORDER BY clause. *)
Lemma descOrderBy_invalid_not_ignored :
  args_invalid (CallDescOrderBy (num 42)) = true
  /\ exec (call (CallDescOrderBy (num 42))) sample_ordered <> sample_ordered
  /\ eval queryCypher sample_ordered
     = "MATCH p=(n1)-[r:T]->(n2)  RETURN r ORDER BY r.name ASC"
  /\ eval queryCypher (exec (call (CallDescOrderBy (num 42))) sample_ordered)
     = "MATCH p=(n1)-[r:T]->(n2)  RETURN r".
Proof.
  split; [reflexivity | split; [| split; reflexivity]].
  intros H. apply (f_equal (fun w => _orderBy (this w))) in H.
  discriminate H.
Qed.

(** * Further properties of the builder *)

(** ** The node-only RETURN clause *)

Lemma or_default_nonempty (o : option string) (d : string) :
  nonempty d = true -> nonempty (or_default o d) = true.
Proof.
  intros Hd. destruct o as [p|]; simpl; [|exact Hd].
  destruct (nonempty p) eqn:E; [exact E | exact Hd].
Qed.

(** X1: the node-only return clause is [RETURN], the keyword [DISTINCT] when
    the flag is truthy, and the projections selected by [nodes]: start and
    end for a falsy value or ['both'], start alone for ['start'], end alone
    for ['end']; a start and an end projection are separated by [", "], and
    an unset projection is the bare variable. *)
Theorem nodesReturnClause_shape (nodes distinct : JSValue) (w : World) :
  wf_query (this w) = true ->
  eval (nodesReturnClause nodes distinct) w
  = "RETURN " ++ distinct_keyword distinct
    ++ join ", "
         ((if selects_start nodes
           then [projection (_returnStart (this w)) "n1"] else [])
          ++ (if selects_end nodes
              then [projection (_returnEnd (this w)) "n2"] else []))%list.
Proof.
  intros H. apply wf_query_iff in H. destruct H as (_ & Hs & He).
  unfold nodesReturnClause, selects_start, selects_end, distinct_keyword.
  cbv zeta. do 2 rewrite eval_bind by readonly.
  unfold eval at 1, ret. cbn [fst].
  rewrite <- (or_default_projection _ "n1" Hs), <- (or_default_projection _ "n2" He).
  destruct (negb (truthy nodes) || strict_eq_string nodes "start"
            || strict_eq_string nodes "both");
    destruct (negb (truthy nodes) || strict_eq_string nodes "end"
              || strict_eq_string nodes "both");
    unfold eval, bind, read, ret; cbn [fst snd List.app join].
  - change ("" ++ or_default (_returnStart (this w)) "n1")
      with (or_default (_returnStart (this w)) "n1").
    rewrite (or_default_nonempty (_returnStart (this w)) "n1" eq_refl).
    now rewrite !append_assoc.
  - reflexivity.
  - reflexivity.
  - reflexivity.
Qed.

Lemma nodesReturnClause_shape_witness :
  eval (nodesReturnClause (JSString "both") (JSBool true)) sample_projected
  = "RETURN DISTINCT n1, n2.c".
Proof.
  rewrite (nodesReturnClause_shape (JSString "both") (JSBool true) sample_projected);
    reflexivity.
Defined.

(** X2: a truthy [nodes] selector other than the strings ['start'], ['end']
    and ['both'] selects nothing: the clause is [RETURN] (and [DISTINCT])
    with an empty projection list, and the node query carries that empty
    RETURN. *)
Theorem nodesReturnClause_unknown_selector (nodes distinct : JSValue) (w : World) :
  truthy nodes = true ->
  strict_eq_string nodes "start" = false ->
  strict_eq_string nodes "end" = false ->
  strict_eq_string nodes "both" = false ->
  eval (nodesReturnClause nodes distinct) w = "RETURN " ++ distinct_keyword distinct
  /\ eval (queryNodesCypher nodes distinct) w
     = eval matchCypher w ++ " RETURN "
       ++ distinct_keyword (default_to (JSBool false) distinct)
       ++ order_limit_tail w.
Proof.
  intros Ht Hs He Hb.
  assert (E : forall d, eval (nodesReturnClause nodes d) w
                        = "RETURN " ++ distinct_keyword d).
  { intros d. unfold nodesReturnClause, distinct_keyword. cbv zeta.
    rewrite Ht, Hs, He, Hb. unfold eval, bind, ret. cbn.
    now rewrite append_nil_r. }
  split; [apply E|].
  rewrite eval_queryNodesCypher.
  assert (D : default_to (JSString "both") nodes = nodes)
    by (destruct nodes; try reflexivity; discriminate Ht).
  rewrite D, E. now rewrite !append_assoc.
Qed.

Lemma nodesReturnClause_unknown_selector_witness :
  eval (nodesReturnClause (JSString "START") (JSBool false)) sample_projected
  = "RETURN "
  /\ eval (queryNodesCypher (JSString "START") (JSBool false)) sample_projected
     = "MATCH p=(n1)-[r:T]->(n2)  RETURN ".
Proof.
  destruct (nodesReturnClause_unknown_selector (JSString "START") (JSBool false)
              sample_projected eq_refl eq_refl eq_refl eq_refl) as [H1 H2].
  split; [rewrite H1 | rewrite H2]; reflexivity.
Defined.

(** ** Layout of the full queries *)

Lemma order_limit_tail_opt (w : World) :
  order_limit_tail w
  = opt_clause (eval orderByClause w) ++ opt_clause (eval limitClause w).
Proof. reflexivity. Qed.

Lemma eval_whereCypher_no_terms (w : World) :
  where_terms w = [] -> eval whereCypher w = "".
Proof. intros E. rewrite eval_whereCypher_fold, E. reflexivity. Qed.

(** X3: the three full renderers lay their clauses out in one order: the
    match pattern, a space, the WHERE fragment, a space, the RETURN clause,
    then the ORDER BY clause and after it the LIMIT clause, each preceded by
    one space when it is not empty and leaving nothing behind when it is. *)
Theorem full_query_layout (w : World) :
  eval queryCypher w
  = match_pattern (this w) ++ " " ++ eval whereCypher w ++ " "
    ++ eval (returnClause false) w
    ++ opt_clause (eval orderByClause w) ++ opt_clause (eval limitClause w)
  /\ eval queryPopulatedCypher w
     = match_pattern (this w) ++ " " ++ eval whereCypher w ++ " "
       ++ eval (returnClause true) w
       ++ opt_clause (eval orderByClause w) ++ opt_clause (eval limitClause w)
  /\ (forall nodes distinct,
        eval (queryNodesCypher nodes distinct) w
        = match_pattern (this w) ++ " " ++ eval whereCypher w ++ " "
          ++ eval (nodesReturnClause (default_to (JSString "both") nodes)
                     (default_to (JSBool false) distinct)) w
          ++ opt_clause (eval orderByClause w) ++ opt_clause (eval limitClause w)).
Proof.
  unfold queryCypher, queryPopulatedCypher.
  repeat split; intros;
    rewrite ?eval_queryCypherBuilder, ?eval_queryNodesCypher, eval_matchCypher,
      order_limit_tail_opt;
    now rewrite !append_assoc.
Qed.

(** X4: with no id constraint and no filter the WHERE fragment is empty but
    its two surrounding spaces stay: every rendered query then has exactly
    two spaces between the match pattern and [RETURN]. *)
Theorem empty_where_leaves_two_spaces (w : World) :
  where_terms w = [] ->
  eval matchCypher w = match_pattern (this w) ++ " "
  /\ eval countCypher w = match_pattern (this w) ++ "  RETURN COUNT(r) as count"
  /\ eval queryCypher w
     = match_pattern (this w) ++ "  " ++ eval (returnClause false) w
       ++ order_limit_tail w
  /\ eval queryPopulatedCypher w
     = match_pattern (this w) ++ "  " ++ eval (returnClause true) w
       ++ order_limit_tail w
  /\ (forall nodes distinct, exists rest,
        eval (queryNodesCypher nodes distinct) w
        = match_pattern (this w) ++ "  RETURN " ++ rest).
Proof.
  intros E. pose proof (eval_whereCypher_no_terms w E) as Hw.
  assert (Hm : eval matchCypher w = match_pattern (this w) ++ " ")
    by (rewrite eval_matchCypher, Hw; reflexivity).
  unfold queryCypher, queryPopulatedCypher.
  repeat split; intros;
    rewrite ?eval_countCypher, ?eval_queryCypherBuilder, ?eval_queryNodesCypher, ?Hm;
    rewrite ?append_assoc; try reflexivity.
  destruct (eval_nodesReturnClause (default_to (JSString "both") nodes)
              (default_to (JSBool false) distinct) w) as [rest ->].
  eexists. cbn [append]. reflexivity.
Qed.

Lemma empty_where_leaves_two_spaces_witness :
  eval countCypher sample_ordered
  = "MATCH p=(n1)-[r:T]->(n2)  RETURN COUNT(r) as count"
  /\ eval queryCypher sample_ordered
     = "MATCH p=(n1)-[r:T]->(n2)  RETURN r ORDER BY r.name ASC".
Proof.
  destruct (empty_where_leaves_two_spaces sample_ordered eq_refl)
    as (_ & Hc & Hq & _).
  split; [rewrite Hc | rewrite Hq]; reflexivity.
Defined.

(** ** Filters and the objects behind them *)

Lemma exec_where_call (role : Role) (v : JSValue) (w : World) :
  exec (call (where_call role v)) w
  = match v with
    | JSWhere a =>
        {| heap := heap_set_variable a (role_variable role) (heap w);
           this := match role with
                   | RoleStart => assign_startNodeWhere (SlotWhere a) (this w)
                   | RoleEnd => assign_endNodeWhere (SlotWhere a) (this w)
                   | RoleRelation => assign_relationWhere (SlotWhere a) (this w)
                   end |}
    | JSUndefined | JSNull =>
        {| heap := heap w;
           this := match role with
                   | RoleStart => assign_startNodeWhere (to_slot v) (this w)
                   | RoleEnd => assign_endNodeWhere (to_slot v) (this w)
                   | RoleRelation => assign_relationWhere (to_slot v) (this w)
                   end |}
    | _ => w
    end.
Proof. destruct role, v; reflexivity. Qed.

Lemma heap_set_variable_same (a : addr) (v : string) (h : Heap) :
  heap_set_variable a v h a = set_variable v (h a).
Proof. unfold heap_set_variable. now rewrite Nat.eqb_refl. Qed.

Lemma heap_set_variable_other (a b : addr) (v : string) (h : Heap) :
  b <> a -> heap_set_variable a v h b = h b.
Proof.
  intros Hb. unfold heap_set_variable.
  destruct (Nat.eqb_spec b a); [contradiction | reflexivity].
Qed.

(** X5: a where setter given a filter stores the reference in its own field
    and sets that filter's [variable] to the pattern variable of the role
    ([n1], [n2] or [r]); what the filter tests, the other filter objects and
    the other two filter fields are left alone, and the term the WHERE
    fragment gets from that field is the filter rendered for the role's
    variable. *)
Theorem where_setter_stamps_variable (role : Role) (a : addr) (w : World) :
  let w' := exec (call (where_call role (JSWhere a))) w in
  role_slot role (this w') = SlotWhere a
  /\ heap w' a = set_variable (role_variable role) (heap w a)
  /\ (forall b, b <> a -> heap w' b = heap w b)
  /\ (forall other, other <> role ->
        role_slot other (this w') = role_slot other (this w))
  /\ filter_term (heap w') (role_slot role (this w'))
     = [fragment (heap w a) (role_variable role)].
Proof.
  cbv zeta. rewrite exec_where_call. cbn [heap this].
  assert (Hslot : role_slot role
                    match role with
                    | RoleStart => assign_startNodeWhere (SlotWhere a) (this w)
                    | RoleEnd => assign_endNodeWhere (SlotWhere a) (this w)
                    | RoleRelation => assign_relationWhere (SlotWhere a) (this w)
                    end = SlotWhere a) by (destruct role; reflexivity).
  split; [exact Hslot|]. split; [apply heap_set_variable_same|].
  split; [intros b Hb; now apply heap_set_variable_other|].
  split.
  - intros other Ho. destruct role, other; try reflexivity; now contradiction Ho.
  - rewrite Hslot. cbn [filter_term]. now rewrite heap_set_variable_same.
Qed.

(** X6: filter objects are shared, not copied: when one filter object is
    given to two where setters in turn, both fields refer to it and both
    terms of the WHERE fragment are rendered for the pattern variable of the
    second role. *)
Theorem shared_filter_last_role_wins (first second : Role) (a : addr) (w : World) :
  let w' := exec (chain [where_call first (JSWhere a);
                         where_call second (JSWhere a)]) w in
  role_slot first (this w') = SlotWhere a
  /\ role_slot second (this w') = SlotWhere a
  /\ filter_term (heap w') (role_slot first (this w'))
     = [fragment (heap w a) (role_variable second)]
  /\ filter_term (heap w') (role_slot second (this w'))
     = [fragment (heap w a) (role_variable second)].
Proof.
  cbv zeta. rewrite !exec_chain_cons. cbn [chain exec ret snd].
  rewrite !exec_where_call. cbn [heap this].
  assert (H1 : role_slot first (this (exec (chain [where_call first (JSWhere a);
                 where_call second (JSWhere a)]) w)) = SlotWhere a).
  { rewrite !exec_chain_cons. cbn [chain exec ret snd]. rewrite !exec_where_call.
    destruct first, second; reflexivity. }
  rewrite !exec_chain_cons in H1. cbn [chain exec ret snd] in H1.
  rewrite !exec_where_call in H1. cbn [heap this] in H1.
  assert (H2 : forall q, role_slot second
                 match second with
                 | RoleStart => assign_startNodeWhere (SlotWhere a) q
                 | RoleEnd => assign_endNodeWhere (SlotWhere a) q
                 | RoleRelation => assign_relationWhere (SlotWhere a) q
                 end = SlotWhere a) by (intros q; destruct second; reflexivity).
  rewrite H1, H2. cbn [filter_term].
  rewrite !heap_set_variable_same. repeat split.
Qed.

(** X7: a where setter given [null] or [undefined] clears its own
    constraint: the field no longer contributes a term to the WHERE
    fragment, while the other two filter fields, every other field and all
    filter objects (the variable stamped on the filter that was held
    included) stay as they were. *)
Theorem where_setter_null_clears (role : Role) (v : JSValue) (w : World) :
  eq_null v = true ->
  let w' := exec (call (where_call role v)) w in
  filter_term (heap w') (role_slot role (this w')) = []
  /\ heap w' = heap w
  /\ (forall other, other <> role ->
        role_slot other (this w') = role_slot other (this w))
  /\ id_terms w' = id_terms w
  /\ match_pattern (this w') = match_pattern (this w)
  /\ eval (returnClause true) w' = eval (returnClause true) w
  /\ order_limit_tail w' = order_limit_tail w.
Proof.
  intros Hv. cbv zeta. rewrite exec_where_call.
  destruct v; try discriminate Hv; destruct role;
    (repeat split;
     try (intros other Ho; destruct other; try reflexivity; now contradiction Ho));
    unfold order_limit_tail;
    rewrite !eval_orderByClause_fold, !eval_limitClause; reflexivity.
Qed.

Lemma where_setter_null_clears_witness :
  filter_term (heap (exec (call (where_call RoleRelation JSNull)) sample_filtered))
    (role_slot RoleRelation
       (this (exec (call (where_call RoleRelation JSNull)) sample_filtered)))
  = [].
Proof.
  apply (where_setter_null_clears RoleRelation JSNull sample_filtered eq_refl).
Defined.

(** ** Endpoint constraints *)

(** X8: [startNode] and [endNode] treat their two arguments independently:
    the id is stored when it is an integer and kept as it was otherwise,
    the label is stored when it is a string and kept as it was otherwise;
    no other field and no filter object changes. *)
Theorem node_setter_arguments_independent (nodeId label : JSValue) (w : World) :
  exec (startNode nodeId label) w
  = {| heap := heap w;
       this := assign_startNodeLabel
                 (match isString label with
                  | Some l => Some l
                  | None => _startNodeLabel (this w)
                  end)
                 (assign_startNodeId
                    (match isInteger nodeId with
                     | Some z => Some z
                     | None => _startNodeId (this w)
                     end) (this w)) |}
  /\ exec (endNode nodeId label) w
     = {| heap := heap w;
          this := assign_endNodeLabel
                    (match isString label with
                     | Some l => Some l
                     | None => _endNodeLabel (this w)
                     end)
                    (assign_endNodeId
                       (match isInteger nodeId with
                        | Some z => Some z
                        | None => _endNodeId (this w)
                        end) (this w)) |}.
Proof.
  destruct w as [h [ty sid sl eid el sw ew rw lim ob rs re rr]].
  unfold startNode, endNode.
  split; destruct (isInteger nodeId), (isString label); reflexivity.
Qed.

(** ** What setters never undo *)

Lemma keeps_constraints_refl (q : OGMNeoRelationQuery) : keeps_constraints q q.
Proof. intros f _ H. exact H. Qed.

Lemma keeps_constraints_trans (q1 q2 q3 : OGMNeoRelationQuery) :
  keeps_constraints q1 q2 -> keeps_constraints q2 q3 -> keeps_constraints q1 q3.
Proof. intros H12 H23 f Hf H. apply (H23 f Hf), (H12 f Hf), H. Qed.

Ltac each_constraint :=
  let f := fresh "f" in
  let Hf := fresh "Hf" in
  let H := fresh "H" in
  intros f Hf H; cbn [In] in Hf;
  repeat (destruct Hf as [<- | Hf]; [try exact H; try reflexivity |]);
  try contradiction.

Lemma call_keeps_constraints (c : Call) (w : World) :
  keeps_constraints (this w) (this (exec (call c) w)).
Proof.
  destruct c; cbn [call];
    unfold set_type, startNode, endNode, startNodeWhere, endNodeWhere,
      relationWhere, limit, descOrderBy, ascOrderBy,
      returnStartNode, returnEndNode, returnRelationNode;
    try (destruct where_; try destruct b; try destruct n; each_constraint);
    setter_cases; each_constraint.
Qed.

(** X9: the type, the endpoint ids and labels, the limit, the ordering and
    the three projections can be replaced but never cleared: once one of
    them is set, it is still set after any chain of setter calls. *)
Theorem constraints_never_cleared (cs : list Call) (w : World) :
  keeps_constraints (this w) (this (exec (chain cs) w)).
Proof.
  revert w. induction cs as [|c cs IH]; intros w.
  - apply keeps_constraints_refl.
  - rewrite exec_chain_cons.
    eapply keeps_constraints_trans; [apply call_keeps_constraints | apply IH].
Qed.

Lemma call_type_nonempty (c : Call) (w : World) :
  projection_ok (_type (this w)) = true ->
  projection_ok (_type (this (exec (call c) w))) = true.
Proof.
  intros H. destruct c; cbn [call];
    unfold set_type, startNode, endNode, startNodeWhere, endNodeWhere,
      relationWhere, limit, descOrderBy, ascOrderBy,
      returnStartNode, returnEndNode, returnRelationNode;
    try (destruct where_; try destruct b; try destruct n; exact H);
    try (setter_cases; exact H).
  destruct (isString type) as [s|]; [|exact H].
  destruct (negb (s =? "")%string) eqn:E; [exact E | exact H].
Qed.

(** X10: on every builder a program can construct, the stored relation type
    is either unset or a non-empty string, so the relation token of the
    match pattern is never a colon with nothing after it. *)
Theorem type_never_dangling (w : World) :
  reachable w ->
  (_type (this w) = None \/ exists t, _type (this w) = Some t /\ t <> "")
  /\ eval _relationClause w <> "r:".
Proof.
  intros (type & h & cs & ->).
  assert (H : projection_ok (_type (this (exec (chain cs) (create type h)))) = true).
  { assert (H0 : projection_ok (_type (this (create type h))) = true).
    { unfold create, constructor, set_type.
      destruct (isString type) as [s|]; [|reflexivity].
      destruct (negb (s =? "")%string) eqn:E; [exact E | reflexivity]. }
    revert H0. generalize (create type h).
    induction cs as [|c cs IH]; intros w H; [exact H|].
    rewrite exec_chain_cons. apply IH. now apply call_type_nonempty. }
  revert H. generalize (exec (chain cs) (create type h)). intros w H.
  unfold eval, _relationClause, get_type, bind, read, ret. cbn [fst snd].
  destruct (_type (this w)) as [t|]; cbn in *.
  - apply nonempty_true in H. split.
    + right. now exists t.
    + intros [= E]. now apply H.
  - split; [now left | discriminate].
Qed.

Lemma type_never_dangling_witness :
  eval _relationClause (exec (chain [CallSetType (JSString "")]) sample_T) <> "r:".
Proof.
  apply (type_never_dangling (exec (chain [CallSetType (JSString "")]) sample_T)).
  exists (JSString "T"), sample_heap, [CallSetType (JSString "")]. reflexivity.
Defined.

Lemma constraints_never_cleared_witness :
  is_some (_orderBy (this (exec (chain [CallLimit JSNull; CallStartNodeWhere JSNull])
                             sample_ordered))) = true.
Proof.
  apply (constraints_never_cleared [CallLimit JSNull; CallStartNodeWhere JSNull]
           sample_ordered (fun x => is_some (_orderBy x))).
  - cbn [In]. do 6 right. left. reflexivity.
  - reflexivity.
Defined.

(** ** How setter calls compose *)

Ltac unfold_setters :=
  cbn [call];
  unfold set_type, startNode, endNode, startNodeWhere, endNodeWhere,
    relationWhere, limit, descOrderBy, ascOrderBy,
    returnStartNode, returnEndNode, returnRelationNode.

Ltac where_cases :=
  repeat match goal with
         | v : JSValue |- context [eq_null ?v] =>
             is_var v; destruct v as [| | [|] | [?| |] | ? | ? | ? |]
         end.

Lemma heap_set_variable_twice (a : addr) (v : string) (h : Heap) (b : addr) :
  heap_set_variable a v (heap_set_variable a v h) b = heap_set_variable a v h b.
Proof. unfold heap_set_variable. destruct (Nat.eqb b a); reflexivity. Qed.

(** X11: every setter is idempotent: calling it twice in a row with the same
    arguments leaves the builder and every filter object as one call
    does. *)
Theorem setter_idempotent (c : Call) (w : World) :
  this (exec (chain [c; c]) w) = this (exec (call c) w)
  /\ (forall a, heap (exec (chain [c; c]) w) a = heap (exec (call c) w) a).
Proof.
  rewrite !exec_chain_cons. cbn [chain exec ret snd].
  destruct c.
  1-3, 7-12: unfold_setters; setter_cases; split; reflexivity.
  all: change (CallStartNodeWhere where_) with (where_call RoleStart where_);
    change (CallEndNodeWhere where_) with (where_call RoleEnd where_);
    change (CallRelationWhere where_) with (where_call RoleRelation where_);
    rewrite !exec_where_call;
    destruct where_; (split; [reflexivity | intros a'; try reflexivity]);
    apply heap_set_variable_twice.
Qed.

(** X12: two setter calls that write different fields commute: in either
    order they leave the same builder, and the same world altogether unless
    both are where setters (which may stamp one shared filter object, the
    later call winning). *)
Theorem setters_commute (c1 c2 : Call) (w : World) :
  footprint c1 <> footprint c2 ->
  this (exec (chain [c1; c2]) w) = this (exec (chain [c2; c1]) w)
  /\ (is_where_call c1 && is_where_call c2 = false ->
      exec (chain [c1; c2]) w = exec (chain [c2; c1]) w).
Proof.
  intros Hf. rewrite !exec_chain_cons. cbn [chain].
  assert (R : forall x, exec (@ret unit tt) x = x) by reflexivity.
  rewrite !R. clear R.
  destruct w as [h [ty sid sl eid el sw ew rw lim ob rs re rr]].
  destruct c1, c2; cbn [footprint] in Hf; try congruence; clear Hf;
    unfold_setters; where_cases; setter_cases;
    (split; [reflexivity | intros Hw; try discriminate Hw; reflexivity]).
Qed.

Lemma setters_commute_witness :
  exec (chain [CallLimit (num 3); CallStartNodeWhere (JSWhere 0%nat)]) sample_T
  = exec (chain [CallStartNodeWhere (JSWhere 0%nat); CallLimit (num 3)]) sample_T.
Proof.
  apply (setters_commute (CallLimit (num 3)) (CallStartNodeWhere (JSWhere 0%nat))
           sample_T).
  - discriminate.
  - reflexivity.
Defined.

(** ** Ordering and limit, set then rendered *)

(** X13: [descOrderBy] can only order by properties of the relation: right
    after it the ORDER BY clause is the given list rendered for [r] and the
    keyword DESC, and it is empty when the list is not a valid property
    list, whatever ordering was set before. *)
Theorem descOrderBy_relation_only (props : JSValue) (w : World) :
  eval orderByClause (exec (descOrderBy props) w)
  = if isValidPropertiesArray props
    then "ORDER BY " ++ parsePropertiesArray props "r" ++ " DESC"
    else "".
Proof.
  rewrite eval_orderByClause_fold. cbn [exec descOrderBy write snd this assign_orderBy
    _orderBy]. unfold order_parts, order_part. cbn [startNodeProperties
    endNodeProperties properties order isValidPropertiesArray order_keyword].
  destruct (isValidPropertiesArray props) eqn:E; [|reflexivity].
  cbn [List.app fold_left]. unfold add_sep. cbn [nonempty String.eqb negb append].
  now rewrite (parsePropertiesArray_nonempty _ _ E).
Qed.

(** X14: every integer other than 0 given to [limit] is rendered as
    [LIMIT n], negative ones included (there is no lower bound): for a
    negative integer the clause starts with [LIMIT -]. *)
Theorem limit_nonzero_rendered (n : Z) (w : World) :
  n <> 0 ->
  eval limitClause (exec (limit (num n)) w) = "LIMIT " ++ Number_toString n
  /\ (n < 0 -> exists digits, eval limitClause (exec (limit (num n)) w)
                              = "LIMIT -" ++ digits).
Proof.
  intros Hn.
  assert (E : eval limitClause (exec (limit (num n)) w)
              = "LIMIT " ++ Number_toString n).
  { rewrite eval_limitClause. cbn. destruct (Z.eqb_spec n 0); [contradiction|].
    reflexivity. }
  split; [exact E|].
  intros Hneg. rewrite E. destruct n as [|p|p]; try lia.
  eexists. reflexivity.
Qed.

Lemma limit_nonzero_rendered_witness :
  eval limitClause (exec (limit (num (-1))) sample_T) = "LIMIT -1".
Proof.
  destruct (limit_nonzero_rendered (-1) sample_T) as [H _]; [discriminate|].
  rewrite H. reflexivity.
Defined.

(** ** The filter store across a chain *)

Lemma call_heap_cases (c : Call) (w : World) (a : addr) :
  heap (exec (call c) w) a = heap w a
  \/ exists v, In v role_variables
               /\ heap (exec (call c) w) a = set_variable v (heap w a).
Proof.
  destruct c.
  1-3, 7-12: left; unfold_setters; setter_cases; reflexivity.
  all: change (CallStartNodeWhere where_) with (where_call RoleStart where_);
    change (CallEndNodeWhere where_) with (where_call RoleEnd where_);
    change (CallRelationWhere where_) with (where_call RoleRelation where_);
    rewrite exec_where_call; destruct where_; try (left; reflexivity);
    cbn [heap]; unfold heap_set_variable;
    (destruct (Nat.eqb a a0); [right | left; reflexivity]);
    eexists; (split; [| reflexivity]); cbn; tauto.
Qed.

(** X15: whatever chain of setters runs, the builder never changes what a
    filter object tests; the only thing it may change on a filter is its
    [variable], and only to one of [n1], [n2] and [r]. *)
Theorem filters_only_restamped (cs : list Call) (w : World) (a : addr) :
  fragment (heap (exec (chain cs) w) a) = fragment (heap w a)
  /\ (variable (heap (exec (chain cs) w) a) = variable (heap w a)
      \/ In (variable (heap (exec (chain cs) w) a)) role_variables).
Proof.
  revert w. induction cs as [|c cs IH]; intros w.
  - split; [reflexivity | now left].
  - rewrite exec_chain_cons.
    destruct (IH (exec (call c) w)) as [Hf Hv].
    destruct (call_heap_cases c w a) as [E | (v & Hin & E)].
    + rewrite E in Hf, Hv. now split.
    + rewrite E in Hf, Hv. cbn [set_variable fragment variable] in Hf, Hv.
      split; [exact Hf|]. destruct Hv as [Hv | Hv]; [|now right].
      right. rewrite Hv. exact Hin.
Qed.

(** ** Projections, set then rendered *)

Lemma or_default_some_nonempty (p d : string) :
  nonempty p = true -> or_default (Some p) d = p.
Proof. intros H. simpl. now rewrite H. Qed.

(** X16: a valid property list given to a projection setter is what the
    RETURN clauses show for that role from then on: [returnRelationNode] in
    the relation query, [returnStartNode] and [returnEndNode] in the
    populated query and in the node-only queries, each rendered for its own
    variable. *)
Theorem projection_set_then_rendered (props : JSValue) (w : World) :
  isValidPropertiesArray props = true ->
  eval (returnClause false) (exec (returnRelationNode props) w)
  = "RETURN " ++ parsePropertiesArray props "r"
  /\ eval (nodesReturnClause (JSString "start") (JSBool false))
       (exec (returnStartNode props) w)
     = "RETURN " ++ parsePropertiesArray props "n1"
  /\ eval (nodesReturnClause (JSString "end") (JSBool false))
       (exec (returnEndNode props) w)
     = "RETURN " ++ parsePropertiesArray props "n2"
  /\ eval (returnClause true)
       (exec (chain [CallReturnStartNode props; CallReturnEndNode props]) w)
     = "RETURN " ++ or_default (_returnRelation (this w)) "r"
       ++ ", " ++ parsePropertiesArray props "n1"
       ++ ", " ++ parsePropertiesArray props "n2".
Proof.
  intros Hv.
  pose proof (parsePropertiesArray_nonempty props "r" Hv) as Hr.
  pose proof (parsePropertiesArray_nonempty props "n1" Hv) as H1.
  pose proof (parsePropertiesArray_nonempty props "n2" Hv) as H2.
  rewrite !exec_chain_cons. cbn [chain call].
  unfold returnRelationNode, returnStartNode, returnEndNode. rewrite Hv.
  repeat split.
  - rewrite eval_returnClause. cbn [exec write snd this assign_returnRelation
      _returnRelation]. rewrite (or_default_some_nonempty _ _ Hr).
    now rewrite append_nil_r.
  - unfold eval, nodesReturnClause, bind, read, ret. cbn.
    now rewrite H1.
  - unfold eval, nodesReturnClause, bind, read, ret. cbn.
    now rewrite H2.
  - rewrite eval_returnClause. cbn.
    now rewrite H1, H2.
Qed.

Lemma projection_set_then_rendered_witness :
  eval (returnClause false)
    (exec (returnRelationNode (JSArray [JSString "since"; JSString "weight"])) sample_T)
  = "RETURN r.since, r.weight".
Proof.
  destruct (projection_set_then_rendered
              (JSArray [JSString "since"; JSString "weight"]) sample_T eq_refl)
    as [H _].
  rewrite H. reflexivity.
Defined.

(** ** A fresh builder *)

(** X17: the constructor only ever sets the type, and only for a non-empty
    string: a new builder has no other constraint, touches no filter object,
    and renders the unconstrained queries, whose only variable part is the
    type token. *)
Theorem fresh_builder (type : JSValue) (h : Heap) :
  heap (create type h) = h
  /\ this (create type h)
     = assign_type (if valid_type_arg type then isString type else None) empty_query
  /\ eval queryCypher (create type h)
     = "MATCH p=(n1)-[r" ++ label_token (_type (this (create type h)))
       ++ "]->(n2)  RETURN r"
  /\ eval queryPopulatedCypher (create type h)
     = "MATCH p=(n1)-[r" ++ label_token (_type (this (create type h)))
       ++ "]->(n2)  RETURN r, n1, n2"
  /\ eval countCypher (create type h)
     = "MATCH p=(n1)-[r" ++ label_token (_type (this (create type h)))
       ++ "]->(n2)  RETURN COUNT(r) as count".
Proof.
  unfold create, constructor, set_type, valid_type_arg, nonempty.
  destruct (isString type) as [s|]; [destruct (negb (s =? "")%string)|];
    cbn; repeat split; now rewrite ?append_assoc.
Qed.

(** ** The populated query against the plain one *)

Lemma queryCypherBuilder_layout (populated : bool) (w : World) :
  eval (_queryCypherBuilder populated) w
  = match_pattern (this w) ++ " " ++ eval whereCypher w ++ " "
    ++ eval (returnClause populated) w
    ++ opt_clause (eval orderByClause w) ++ opt_clause (eval limitClause w).
Proof.
  rewrite eval_queryCypherBuilder, eval_matchCypher, order_limit_tail_opt.
  now rewrite !append_assoc.
Qed.

(** X18: the populated query is the plain relation query with the start and
    end projections inserted after the relation projection; the match
    pattern, the WHERE fragment and the ORDER BY and LIMIT clauses of the
    two are the same text. *)
Theorem populated_extends_plain (w : World) :
  exists front tail,
    front = match_pattern (this w) ++ " " ++ eval whereCypher w
            ++ " RETURN " ++ or_default (_returnRelation (this w)) "r"
    /\ tail = opt_clause (eval orderByClause w) ++ opt_clause (eval limitClause w)
    /\ eval queryCypher w = front ++ tail
    /\ eval queryPopulatedCypher w
       = front ++ ", " ++ or_default (_returnStart (this w)) "n1"
         ++ ", " ++ or_default (_returnEnd (this w)) "n2" ++ tail.
Proof.
  do 2 eexists. split; [reflexivity | split; [reflexivity|]].
  unfold queryCypher, queryPopulatedCypher.
  rewrite !queryCypherBuilder_layout, !eval_returnClause.
  split; repeat (rewrite ?append_nil_r, ?append_assoc; cbn [append]); reflexivity.
Qed.

(** ** Which setters can change which clause *)

(** X19: the setters for ordering, limit and projections never change what
    is matched: after any such call the match pattern, the WHERE fragment,
    the filter objects and the whole count query are what they were. *)
Theorem presentation_setters_keep_match (c : Call) (w : World) :
  is_presentation_call c = true ->
  heap (exec (call c) w) = heap w
  /\ match_pattern (this (exec (call c) w)) = match_pattern (this w)
  /\ eval whereCypher (exec (call c) w) = eval whereCypher w
  /\ eval matchCypher (exec (call c) w) = eval matchCypher w
  /\ eval countCypher (exec (call c) w) = eval countCypher w.
Proof.
  intros Hc.
  rewrite !eval_countCypher, !eval_matchCypher, !eval_whereCypher_fold.
  destruct c; try discriminate Hc; unfold_setters; setter_cases; repeat split.
Qed.

Lemma presentation_setters_keep_match_witness :
  eval countCypher (exec (call (CallLimit (num 4))) sample_filtered)
  = eval countCypher sample_filtered.
Proof.
  apply (presentation_setters_keep_match (CallLimit (num 4)) sample_filtered eq_refl).
Defined.

Lemma eval_nodesReturnClause_fields (nodes distinct : JSValue) (w : World) :
  eval (nodesReturnClause nodes distinct) w
  = "RETURN " ++ distinct_keyword distinct
    ++ (let starts :=
          if selects_start nodes then or_default (_returnStart (this w)) "n1" else "" in
        if selects_end nodes
        then (if nonempty starts then starts ++ ", " else starts)
             ++ or_default (_returnEnd (this w)) "n2"
        else starts).
Proof.
  unfold nodesReturnClause, selects_start, selects_end, distinct_keyword.
  cbv zeta. do 2 rewrite eval_bind by readonly.
  destruct (negb (truthy nodes) || strict_eq_string nodes "start"
            || strict_eq_string nodes "both");
    destruct (negb (truthy nodes) || strict_eq_string nodes "end"
              || strict_eq_string nodes "both"); reflexivity.
Qed.

(** X20: conversely the setters for the type, the endpoints and the filters
    never change what is returned or how: after any such call the RETURN
    clauses, the ORDER BY clause and the LIMIT clause are what they were. *)
Theorem structure_setters_keep_presentation (c : Call) (w : World) :
  is_presentation_call c = false ->
  (forall populated,
      eval (returnClause populated) (exec (call c) w)
      = eval (returnClause populated) w)
  /\ (forall nodes distinct,
        eval (nodesReturnClause nodes distinct) (exec (call c) w)
        = eval (nodesReturnClause nodes distinct) w)
  /\ eval orderByClause (exec (call c) w) = eval orderByClause w
  /\ eval limitClause (exec (call c) w) = eval limitClause w.
Proof.
  intros Hc.
  destruct c; try discriminate Hc; unfold_setters; where_cases; setter_cases;
    (split; [intros; rewrite !eval_returnClause; reflexivity |]);
    (split; [intros; rewrite !eval_nodesReturnClause_fields; reflexivity |]);
    (split; [rewrite !eval_orderByClause_fold; reflexivity | reflexivity]).
Qed.

Lemma structure_setters_keep_presentation_witness :
  eval orderByClause (exec (call (CallStartNode (num 1) (JSString "L"))) sample_ordered)
  = eval orderByClause sample_ordered.
Proof.
  apply (structure_setters_keep_presentation
           (CallStartNode (num 1) (JSString "L")) sample_ordered eq_refl).
Defined.

(** ** Endpoint ids in the WHERE fragment *)

Lemma fold_add_sep_prefix (sep : string) (ts : list string) (acc : string) :
  exists rest, fold_left (add_sep sep) ts acc = acc ++ rest.
Proof.
  revert acc. induction ts as [|t ts IH]; intros acc; cbn [fold_left].
  - exists "". now rewrite append_nil_r.
  - destruct (IH (add_sep sep acc t)) as [rest ->].
    unfold add_sep. eexists. rewrite !append_assoc. reflexivity.
Qed.

(** X21: every integer start id is rendered, 0 and negative numbers
    included (the id test is [!= null], not truthiness): after
    [startNode(z, label)] the WHERE fragment starts with [WHERE ID(n1) = z],
    whatever else is constrained; with [endNode(z, label)] and no start id it
    starts with [WHERE ID(n2) = z]. *)
Theorem node_id_always_rendered (z : Z) (label : JSValue) (w : World) :
  (exists rest,
      eval whereCypher (exec (startNode (num z) label) w)
      = "WHERE ID(n1) = " ++ Number_toString z ++ rest)
  /\ (_startNodeId (this w) = None ->
      exists rest,
        eval whereCypher (exec (endNode (num z) label) w)
        = "WHERE ID(n2) = " ++ Number_toString z ++ rest).
Proof.
  split; [| intros Hnone]; rewrite eval_whereCypher_fold;
    unfold where_terms, id_terms, startNode, endNode; cbn [num isInteger];
    destruct (isString label); cbn; rewrite ?Hnone; cbn;
    match goal with
    | |- context [fold_left ?f ?ts ?acc] =>
        destruct (fold_add_sep_prefix " AND " ts acc) as [rest ->]
    end;
    eexists; cbn; rewrite ?append_assoc; reflexivity.
Qed.

Lemma node_id_always_rendered_witness :
  exists rest,
    eval whereCypher (exec (endNode (num 0) JSUndefined) sample_T)
    = "WHERE ID(n2) = " ++ Number_toString 0 ++ rest.
Proof.
  apply (node_id_always_rendered 0 JSUndefined sample_T). reflexivity.
Defined.

(** ** The selector of the node query *)

(** X22: for the node query a falsy selector ([undefined], [null], [0],
    [NaN], [false] or the empty string) means both nodes: the query is the
    one rendered for ['both']. *)
Theorem falsy_selector_means_both (nodes distinct : JSValue) (w : World) :
  truthy nodes = false ->
  eval (queryNodesCypher nodes distinct) w
  = eval (queryNodesCypher (JSString "both") distinct) w.
Proof.
  intros Hn. rewrite !eval_queryNodesCypher, !eval_nodesReturnClause_fields.
  assert (Hs : forall v, truthy v = false ->
                         selects_start (default_to (JSString "both") v) = true
                         /\ selects_end (default_to (JSString "both") v) = true).
  { intros v Hv. destruct v; cbn in *; try discriminate Hv;
      unfold selects_start, selects_end; cbn; rewrite ?Hv; auto. }
  destruct (Hs nodes Hn) as [-> ->]. reflexivity.
Qed.

Lemma falsy_selector_means_both_witness :
  eval (queryNodesCypher JSNull (JSBool true)) sample_projected
  = eval (queryNodesCypher (JSString "both") (JSBool true)) sample_projected.
Proof.
  apply (falsy_selector_means_both JSNull (JSBool true) sample_projected eq_refl).
Defined.
